(** * asio channel service: the put/get matching engine

    A shallow embedding of [asio/detail/channel_service.hpp] and the
    properties of the channel state machine it implements.

    The header defines the state of a channel ([base_implementation_type],
    [implementation_type<T>]), the small inline members ([is_open], [open],
    [ready]), the entry points [async_put] and [async_get], and the two
    private algorithms [do_put] and [do_get].  Those are translated here line
    by line.  The members that the header only declares ([construct],
    [destroy], [close], [cancel]) live in [impl/channel_service.ipp]; they are
    modelled from the written specification and marked as such.

    Conventions of the embedding:
    - a [std::size_t] is only ever a deque size or the capacity it is compared
      with, so it is a [nat];
    - [op_queue<operation>] and [std::deque<T>] are lists, oldest element
      first;
    - an operation owned by a wait queue is stored in the queue by value; the
      pointer that [front()] returns is the head of the list;
    - the calls made on [io_service_] are recorded, in order, in a log;
    - channel code runs in a state monad over the channel object (passed by
      reference in C++) and that log. *)

From Stdlib Require Import List Bool Arith Lia.
Import ListNotations.

(** Modelled from the spec: [asio/error.hpp] is not part of the sources.
    An [asio::error_code], restricted to the values the channel produces:
    none, [asio::error::broken_pipe] (BrokenChannel in the specification) and
    the error of a cancelled operation (OperationCancelled). *)
Inductive error_code : Type :=
  | no_error
  | broken_pipe
  | operation_cancelled.

Section ChannelService.

(** The element type of the channel, and the type of completion handlers. *)
Context {T Handler : Type}.

(** [T()]: the value-initialised element that [std::deque<T>::resize]
    appends, and the content of a value slot nothing has been stored in. *)
Variable T_default : T.

(** [asio_handler_cont_helpers::is_continuation(handler)]. *)
Variable is_continuation : Handler -> bool.

(** ** Operations *)

(** Modelled from the spec: [channel_op.hpp], [channel_put_op.hpp] and
    [channel_get_op.hpp] are not part of the sources.  An operation carries
    the handler it wraps, an error code [ec_] and a value slot of type [T]
    (pre-filled for a put, filled on resolution for a get). *)
Record channel_op : Type := mk_channel_op {
  handler_ : Handler;
  ec_ : error_code;
  value_ : T
}.

Definition get_value (op : channel_op) : T := value_ op.

Definition set_value (op : channel_op) (v : T) : channel_op :=
  {| handler_ := handler_ op; ec_ := ec_ op; value_ := v |}.

(** [op->ec_ = ec]. *)
Definition set_ec (op : channel_op) (ec : error_code) : channel_op :=
  {| handler_ := handler_ op; ec_ := ec; value_ := value_ op |}.

(** Modelled from the spec: the constructor called by
    [new (p.v) channel_put_op<T, Handler>(value, handler)]; a put operation
    is submitted with its value and without error. *)
Definition channel_put_op (value : T) (handler : Handler) : channel_op :=
  {| handler_ := handler; ec_ := no_error; value_ := value |}.

(** Modelled from the spec: the constructor called by
    [new (p.v) channel_get_op<T, Handler>(handler)]; a get operation is
    submitted without error, its value slot not yet filled. *)
Definition channel_get_op (handler : Handler) : channel_op :=
  {| handler_ := handler; ec_ := no_error; value_ := T_default |}.

(** ** [op_queue<operation>] *)

(** Modelled from the spec: [op_queue.hpp] is not part of the sources.  The
    wait queues are FIFO: [push] appends at the back, [front] is the oldest
    operation (null when there is none) and [pop] removes it. *)
Definition op_queue : Type := list channel_op.

(** [q.front()]: the oldest operation, or null. *)
Definition front (q : op_queue) : option channel_op :=
  match q with
  | [] => None
  | op :: _ => Some op
  end.

(** [q.pop()]. *)
Definition pop (q : op_queue) : op_queue :=
  match q with
  | [] => []
  | _ :: rest => rest
  end.

(** [q.push(op)]. *)
Definition push (q : op_queue) (op : channel_op) : op_queue := q ++ [op].

(** ** [std::deque<T>] *)

Definition deque : Type := list T.

Definition size (d : deque) : nat := length d.

Definition empty (d : deque) : bool :=
  match d with
  | [] => true
  | _ :: _ => false
  end.

(** [d.front()]; only called on a deque that is not empty. *)
Definition deque_front (d : deque) : T := hd T_default d.

Definition pop_front (d : deque) : deque := tl d.

(** [d.resize(n)]: cut to [n] elements, or pad with [T()]. *)
Definition resize (d : deque) (n : nat) : deque :=
  firstn n d ++ repeat T_default (n - length d).

(** [d.back() = v]; only called on a deque that is not empty. *)
Definition assign_back (d : deque) (v : T) : deque :=
  match d with
  | [] => []
  | _ :: _ => removelast d ++ [v]
  end.

(** ** Channel state *)

(** [implementation_type<T>] with the fields of its base
    [base_implementation_type].  The links [next_] and [prev_] of the
    service's list of channels are left out: nothing in this header reads
    them. *)
Record implementation_type : Type := mk_implementation_type {
  open_ : bool;
  max_buffer_size_ : nat;
  putters_ : op_queue;
  getters_ : op_queue;
  buffer_ : deque
}.

Definition with_open (i : implementation_type) (b : bool) :=
  {| open_ := b; max_buffer_size_ := max_buffer_size_ i;
     putters_ := putters_ i; getters_ := getters_ i; buffer_ := buffer_ i |}.

Definition with_max_buffer_size (i : implementation_type) (n : nat) :=
  {| open_ := open_ i; max_buffer_size_ := n;
     putters_ := putters_ i; getters_ := getters_ i; buffer_ := buffer_ i |}.

Definition with_putters (i : implementation_type) (q : op_queue) :=
  {| open_ := open_ i; max_buffer_size_ := max_buffer_size_ i;
     putters_ := q; getters_ := getters_ i; buffer_ := buffer_ i |}.

Definition with_getters (i : implementation_type) (q : op_queue) :=
  {| open_ := open_ i; max_buffer_size_ := max_buffer_size_ i;
     putters_ := putters_ i; getters_ := q; buffer_ := buffer_ i |}.

Definition with_buffer (i : implementation_type) (d : deque) :=
  {| open_ := open_ i; max_buffer_size_ := max_buffer_size_ i;
     putters_ := putters_ i; getters_ := getters_ i; buffer_ := d |}.

(** The default constructor of [base_implementation_type], with the empty
    deque of [implementation_type<T>]. *)
Definition new_implementation : implementation_type :=
  {| open_ := true; max_buffer_size_ := 0;
     putters_ := []; getters_ := []; buffer_ := [] |}.

(** ** The io_service *)

(** The three calls the channel makes on [io_service_]. *)
Inductive io_call : Type :=
  | post_immediate (op : channel_op) (is_continuation : bool)
  | post_deferred (op : channel_op)
  | work.

(** The io_service, seen from the channel: the calls received so far, oldest
    first. *)
Definition io_service_impl : Type := list io_call.

(** ** The state monad *)

Record world : Type := mk_world {
  impl : implementation_type;
  io_service_ : io_service_impl
}.

Definition M (A : Type) : Type := world -> A * world.

Definition ret {A : Type} (a : A) : M A := fun w => (a, w).

Definition bind {A B : Type} (m : M A) (k : A -> M B) : M B :=
  fun w => let (a, w') := m w in k a w'.

Definition exec {A : Type} (m : M A) (w : world) : world := snd (m w).

Local Notation "x <- m ;; k" := (bind m (fun x => k))
  (at level 61, m at next level, right associativity).
Local Notation "m ;; k" := (bind m (fun _ => k))
  (at level 61, right associativity).

Definition get_impl : M implementation_type := fun w => (impl w, w).

Definition update_impl (f : implementation_type -> implementation_type) : M unit :=
  fun w => (tt, {| impl := f (impl w); io_service_ := io_service_ w |}).

Definition call (c : io_call) : M unit :=
  fun w => (tt, {| impl := impl w; io_service_ := io_service_ w ++ [c] |}).

(** [io_service_.post_immediate_completion(op, is_continuation)]. *)
Definition post_immediate_completion (op : channel_op) (is_cont : bool) : M unit :=
  call (post_immediate op is_cont).

(** [io_service_.post_deferred_completion(op)]. *)
Definition post_deferred_completion (op : channel_op) : M unit :=
  call (post_deferred op).

(** [io_service_.work_started()]. *)
Definition work_started : M unit := call work.

(** ** Inline members of the header *)

Definition is_open (i : implementation_type) : bool := open_ i.

Definition open : M unit := update_impl (fun i => with_open i true).

(** [ready]: a value can be read without blocking. *)
Definition ready (i : implementation_type) : bool :=
  negb (empty (buffer_ i)) || negb (match putters_ i with [] => true | _ => false end).

(** ** The put algorithm *)

Definition do_put (putter : channel_op) (is_cont : bool) : M unit :=
  i <- get_impl ;;
  if negb (open_ i) then
    post_immediate_completion (set_ec putter broken_pipe) is_cont
  else
    match front (getters_ i) with
    | Some getter =>
        let getter := set_value getter (get_value putter) in
        update_impl (fun i => with_getters i (pop (getters_ i))) ;;
        post_deferred_completion getter ;;
        post_immediate_completion putter is_cont
    | None =>
        if size (buffer_ i) <? max_buffer_size_ i then
          update_impl (fun i =>
            with_buffer i (resize (buffer_ i) (size (buffer_ i) + 1))) ;;
          update_impl (fun i =>
            with_buffer i (assign_back (buffer_ i) (get_value putter))) ;;
          post_immediate_completion putter is_cont
        else
          update_impl (fun i => with_putters i (push (putters_ i) putter)) ;;
          work_started
    end.

(** ** The get algorithm *)

Definition do_get (getter : channel_op) (is_cont : bool) : M unit :=
  i <- get_impl ;;
  if negb (empty (buffer_ i)) then
    let getter := set_value getter (deque_front (buffer_ i)) in
    update_impl (fun i => with_buffer i (pop_front (buffer_ i))) ;;
    match front (putters_ i) with
    | Some putter =>
        update_impl (fun i =>
          with_buffer i (resize (buffer_ i) (size (buffer_ i) + 1))) ;;
        update_impl (fun i =>
          with_buffer i (assign_back (buffer_ i) (get_value putter))) ;;
        update_impl (fun i => with_putters i (pop (putters_ i))) ;;
        post_deferred_completion putter
    | None => ret tt
    end ;;
    post_immediate_completion getter is_cont
  else
    match front (putters_ i) with
    | Some putter =>
        let getter := set_value getter (get_value putter) in
        update_impl (fun i => with_putters i (pop (putters_ i))) ;;
        post_deferred_completion putter ;;
        post_immediate_completion getter is_cont
    | None =>
        if open_ i then
          update_impl (fun i => with_getters i (push (getters_ i) getter)) ;;
          work_started
        else
          post_immediate_completion (set_ec getter broken_pipe) is_cont
    end.

(** ** Entry points *)

Definition async_put (value : T) (handler : Handler) : M unit :=
  let is_cont := is_continuation handler in
  let p := channel_put_op value handler in
  do_put p is_cont.

Definition async_get (handler : Handler) : M unit :=
  let is_cont := is_continuation handler in
  let p := channel_get_op handler in
  do_get p is_cont.

(** ** Members defined outside the header *)

(** Modelled from the spec: [channel_service::construct] is only declared in
    the header.  It "initializes an empty, open Channel State with the given
    capacity"; the registration in the service-wide list is not modelled. *)
Definition construct (max_buffer_size : nat) : M unit :=
  update_impl (fun _ => with_max_buffer_size new_implementation max_buffer_size).

(** Modelled from the spec: the common part of [close] and [cancel], which
    resolve a queued operation by storing the error in it and handing it to
    the executor for immediate dispatch, with the scheduling hint of the
    operation. *)
Fixpoint complete_all (ec : error_code) (ops : op_queue) : M unit :=
  match ops with
  | [] => ret tt
  | op :: rest =>
      post_immediate_completion (set_ec op ec) (is_continuation (handler_ op)) ;;
      complete_all ec rest
  end.

(** Modelled from the spec: [channel_service::close] is only declared in the
    header.  It "sets [is_open = false], then resolves every queued getter
    with error BrokenChannel and every queued putter with error
    BrokenChannel, dispatching each immediately", and drains both queues. *)
Definition close : M unit :=
  update_impl (fun i => with_open i false) ;;
  i <- get_impl ;;
  update_impl (fun i => with_getters i []) ;;
  complete_all broken_pipe (getters_ i) ;;
  update_impl (fun i => with_putters i []) ;;
  complete_all broken_pipe (putters_ i).

(** Modelled from the spec: [channel_service::cancel] is only declared in the
    header.  It "resolves every queued getter and putter with error
    OperationCancelled and dispatches them immediately, but does not change
    [is_open]", and drains both queues. *)
Definition cancel : M unit :=
  i <- get_impl ;;
  update_impl (fun i => with_getters i []) ;;
  complete_all operation_cancelled (getters_ i) ;;
  update_impl (fun i => with_putters i []) ;;
  complete_all operation_cancelled (putters_ i).

(** Modelled from the spec: [channel_service::destroy] is only declared in
    the header.  It "unregisters from the list, then cancels all operations
    still queued"; the list is not modelled. *)
Definition destroy : M unit := cancel.

(** ** Histories of a channel *)

(** What a user of the channel can ask of it. *)
Inductive request : Type :=
  | req_async_put (value : T) (handler : Handler)
  | req_async_get (handler : Handler)
  | req_open
  | req_close
  | req_cancel.

Definition serve (r : request) : M unit :=
  match r with
  | req_async_put value handler => async_put value handler
  | req_async_get handler => async_get handler
  | req_open => open
  | req_close => close
  | req_cancel => cancel
  end.

Fixpoint serve_all (rs : list request) : M unit :=
  match rs with
  | [] => ret tt
  | r :: rest => serve r ;; serve_all rest
  end.

(** A default-constructed channel object and an io_service that has received
    no call yet. *)
Definition boot : world :=
  {| impl := new_implementation; io_service_ := [] |}.

(** The world after constructing a channel of the given capacity and serving
    the requests in order. *)
Definition history (max_buffer_size : nat) (rs : list request) : world :=
  exec (construct max_buffer_size ;; serve_all rs) boot.

(** ** Vocabulary of the statements *)

(** The call by which [close] and [cancel] resolve a queued operation. *)
Definition resolved (ec : error_code) (op : channel_op) : io_call :=
  post_immediate (set_ec op ec) (is_continuation (handler_ op)).

(** An operation that no error has been stored in. *)
Definition unresolved (op : channel_op) : Prop := ec_ op = no_error.

(** Operations are told apart by their handlers: [sel] picks the handlers of
    interest.  [dispatched sel log] counts the completions (immediate or
    deferred) the log holds for them, [queued sel i] how many of them wait in
    the queues of [i], and [submitted sel rs] how many requests of [rs]
    submit one. *)
Definition dispatch_of (sel : Handler -> bool) (c : io_call) : bool :=
  match c with
  | post_immediate op _ => sel (handler_ op)
  | post_deferred op => sel (handler_ op)
  | work => false
  end.

Definition dispatched (sel : Handler -> bool) (log : io_service_impl) : nat :=
  length (filter (dispatch_of sel) log).

Definition waiting (sel : Handler -> bool) (q : op_queue) : nat :=
  length (filter (fun op => sel (handler_ op)) q).

Definition queued (sel : Handler -> bool) (i : implementation_type) : nat :=
  waiting sel (putters_ i) + waiting sel (getters_ i).

Definition submits (sel : Handler -> bool) (r : request) : bool :=
  match r with
  | req_async_put _ handler => sel handler
  | req_async_get handler => sel handler
  | _ => false
  end.

Definition submitted (sel : Handler -> bool) (rs : list request) : nat :=
  length (filter (submits sel) rs).

(** The calls that successive gets with handlers [hs] produce on a closed
    channel holding the values [b] and no putter: the values in order, then
    failures. *)
Fixpoint drain_calls (hs : list Handler) (b : deque) : list io_call :=
  match hs with
  | [] => []
  | h :: hs' =>
      match b with
      | v :: b' =>
          post_immediate (set_value (channel_get_op h) v) (is_continuation h)
            :: drain_calls hs' b'
      | [] =>
          post_immediate (set_ec (channel_get_op h) broken_pipe) (is_continuation h)
            :: drain_calls hs' []
      end
  end.

(** The invariants of a channel (section 3 of the specification). *)
Definition buffer_bounded (i : implementation_type) : Prop :=
  size (buffer_ i) <= max_buffer_size_ i.

Definition queues_exclusive (i : implementation_type) : Prop :=
  putters_ i = [] \/ getters_ i = [].

Definition closed_has_no_waiter (i : implementation_type) : Prop :=
  open_ i = false -> putters_ i = [] /\ getters_ i = [].

Definition waiters_unresolved (i : implementation_type) : Prop :=
  Forall unresolved (putters_ i) /\ Forall unresolved (getters_ i).

(** ** Vocabulary of the further properties *)

(** The values in flight, oldest first: those in the buffer, then those of
    the queued putters. *)
Definition in_flight (i : implementation_type) : list T :=
  buffer_ i ++ map get_value (putters_ i).

(** The immediate completions of a log, the operations it completes
    deferred, and the number of its [work_started] calls. *)
Definition immediate_calls (log : io_service_impl) : io_service_impl :=
  filter (fun c => match c with post_immediate _ _ => true | _ => false end) log.

Fixpoint deferred_ops (log : io_service_impl) : list channel_op :=
  match log with
  | [] => []
  | post_deferred op :: rest => op :: deferred_ops rest
  | _ :: rest => deferred_ops rest
  end.

Definition work_count (log : io_service_impl) : nat :=
  length (filter (fun c => match c with work => true | _ => false end) log).

(** An operation carried by a call, if any. *)
Definition completed_op (c : io_call) : option channel_op :=
  match c with
  | post_immediate op _ => Some op
  | post_deferred op => Some op
  | work => None
  end.

(** No operation waits while it could be served: a putter waits only while
    the buffer is full, a getter only while no value is in flight. *)
Definition waits_only_when_needed (i : implementation_type) : Prop :=
  (putters_ i <> [] -> max_buffer_size_ i <= size (buffer_ i)) /\
  (getters_ i <> [] -> buffer_ i = [] /\ putters_ i = []).

(** Every [work_started] is matched by a deferred completion or by an
    operation still queued. *)
Definition work_balanced (w : world) : Prop :=
  work_count (io_service_ w) =
    length (deferred_ops (io_service_ w))
      + length (putters_ (impl w)) + length (getters_ (impl w)).

(** Requests that put the given values, with the given handlers. *)
Definition req_puts (puts : list (T * Handler)) : list request :=
  map (fun p => req_async_put (fst p) (snd p)) puts.

(** The calls of successive puts that each find a queued getter. *)
Fixpoint feed_calls (gs : op_queue) (puts : list (T * Handler)) : list io_call :=
  match gs, puts with
  | g :: gs', (v, h) :: puts' =>
      post_deferred (set_value g v)
        :: post_immediate (channel_put_op v h) (is_continuation h)
        :: feed_calls gs' puts'
  | _, _ => []
  end.

(** The calls that running [m] on [w] adds to the log. *)
Definition calls_added (m : M unit) (w : world) : list io_call :=
  skipn (length (io_service_ w)) (io_service_ (exec m w)).

(** The completions of successive gets with handlers [hs] that find the
    values [vs], written out field by field: each getter is posted at once
    with its handler, no error and the next value; once the values are
    exhausted, with [broken_pipe] and an unfilled slot. *)
Fixpoint deliveries (hs : list Handler) (vs : list T) : list io_call :=
  match hs with
  | [] => []
  | h :: hs' =>
      match vs with
      | v :: vs' =>
          post_immediate {| handler_ := h; ec_ := no_error; value_ := v |}
            (is_continuation h)
            :: deliveries hs' vs'
      | [] =>
          post_immediate {| handler_ := h; ec_ := broken_pipe; value_ := T_default |}
            (is_continuation h)
            :: deliveries hs' []
      end
  end.

(** A call that completes some operation with the error [ec]. *)
Definition completes_with (ec : error_code) (call : io_call) : Prop :=
  exists op, completed_op call = Some op /\ ec_ op = ec.

(** The outcomes of [do_put] and [do_get], one constructor per branch of the
    source, each with the condition under which the branch is taken and the
    world it leaves. *)
Inductive put_outcome (w : world) (putter : channel_op) (c : bool) : world -> Prop :=
  | put_closed :
      open_ (impl w) = false ->
      put_outcome w putter c
        {| impl := impl w;
           io_service_ := io_service_ w ++
             [post_immediate (set_ec putter broken_pipe) c] |}
  | put_handoff (g : channel_op) (gs : op_queue) :
      open_ (impl w) = true ->
      getters_ (impl w) = g :: gs ->
      put_outcome w putter c
        {| impl := with_getters (impl w) gs;
           io_service_ := io_service_ w ++
             [post_deferred (set_value g (value_ putter));
              post_immediate putter c] |}
  | put_buffered :
      open_ (impl w) = true ->
      getters_ (impl w) = [] ->
      size (buffer_ (impl w)) < max_buffer_size_ (impl w) ->
      put_outcome w putter c
        {| impl := with_buffer (impl w) (buffer_ (impl w) ++ [value_ putter]);
           io_service_ := io_service_ w ++ [post_immediate putter c] |}
  | put_parked :
      open_ (impl w) = true ->
      getters_ (impl w) = [] ->
      max_buffer_size_ (impl w) <= size (buffer_ (impl w)) ->
      put_outcome w putter c
        {| impl := with_putters (impl w) (putters_ (impl w) ++ [putter]);
           io_service_ := io_service_ w ++ [work] |}.

Inductive get_outcome (w : world) (getter : channel_op) (c : bool) : world -> Prop :=
  | get_refill (v : T) (b : deque) (p : channel_op) (ps : op_queue) :
      buffer_ (impl w) = v :: b ->
      putters_ (impl w) = p :: ps ->
      get_outcome w getter c
        {| impl := with_putters (with_buffer (impl w) (b ++ [value_ p])) ps;
           io_service_ := io_service_ w ++
             [post_deferred p; post_immediate (set_value getter v) c] |}
  | get_buffered (v : T) (b : deque) :
      buffer_ (impl w) = v :: b ->
      putters_ (impl w) = [] ->
      get_outcome w getter c
        {| impl := with_buffer (impl w) b;
           io_service_ := io_service_ w ++
             [post_immediate (set_value getter v) c] |}
  | get_handoff (p : channel_op) (ps : op_queue) :
      buffer_ (impl w) = [] ->
      putters_ (impl w) = p :: ps ->
      get_outcome w getter c
        {| impl := with_putters (impl w) ps;
           io_service_ := io_service_ w ++
             [post_deferred p;
              post_immediate (set_value getter (value_ p)) c] |}
  | get_parked :
      buffer_ (impl w) = [] ->
      putters_ (impl w) = [] ->
      open_ (impl w) = true ->
      get_outcome w getter c
        {| impl := with_getters (impl w) (getters_ (impl w) ++ [getter]);
           io_service_ := io_service_ w ++ [work] |}
  | get_closed :
      buffer_ (impl w) = [] ->
      putters_ (impl w) = [] ->
      open_ (impl w) = false ->
      get_outcome w getter c
        {| impl := impl w;
           io_service_ := io_service_ w ++
             [post_immediate (set_ec getter broken_pipe) c] |}.

Ltac run_monad :=
  unfold exec, bind, ret, get_impl, update_impl, post_immediate_completion,
    post_deferred_completion, work_started, call;
  cbn -[resize assign_back].

Ltac open_world w :=
  let o := fresh "o" in let m := fresh "m" in let ps := fresh "ps" in
  let gs := fresh "gs" in let b := fresh "b" in let log := fresh "log" in
  destruct w as [[o m ps gs b] log]; cbn in *; subst.

(** ** Deques and logs *)

Lemma assign_back_resize (d : deque) (v : T) :
  assign_back (resize d (size d + 1)) v = d ++ [v].
Proof.
  unfold resize, size.
  rewrite firstn_all2 by lia.
  replace (length d + 1 - length d) with 1 by lia.
  cbn [repeat].
  unfold assign_back.
  destruct (d ++ [T_default]) eqn:E.
  - destruct d; discriminate E.
  - rewrite <- E. now rewrite removelast_last.
Qed.

(** ** The four outcomes of a put *)

Lemma do_put_closed (w : world) (putter : channel_op) (c : bool) :
  open_ (impl w) = false ->
  exec (do_put putter c) w =
    {| impl := impl w;
       io_service_ := io_service_ w ++ [post_immediate (set_ec putter broken_pipe) c] |}.
Proof.
  intros Ho. open_world w. reflexivity.
Qed.

Lemma do_put_handoff (w : world) (putter : channel_op) (c : bool)
    (g : channel_op) (gs : op_queue) :
  open_ (impl w) = true ->
  getters_ (impl w) = g :: gs ->
  exec (do_put putter c) w =
    {| impl := with_getters (impl w) gs;
       io_service_ := io_service_ w ++
         [post_deferred (set_value g (value_ putter)); post_immediate putter c] |}.
Proof.
  intros Ho Hg. open_world w. unfold do_put. run_monad.
  now rewrite <- app_assoc.
Qed.

Lemma do_put_buffered (w : world) (putter : channel_op) (c : bool) :
  open_ (impl w) = true ->
  getters_ (impl w) = [] ->
  size (buffer_ (impl w)) < max_buffer_size_ (impl w) ->
  exec (do_put putter c) w =
    {| impl := with_buffer (impl w) (buffer_ (impl w) ++ [value_ putter]);
       io_service_ := io_service_ w ++ [post_immediate putter c] |}.
Proof.
  intros Ho Hg Hlt. open_world w. apply Nat.ltb_lt in Hlt.
  unfold do_put, exec, bind, get_impl, size.
  cbn [impl open_ negb getters_ front buffer_ max_buffer_size_].
  rewrite Hlt. run_monad.
  unfold with_buffer; cbn -[resize assign_back].
  now rewrite assign_back_resize.
Qed.

Lemma do_put_parked (w : world) (putter : channel_op) (c : bool) :
  open_ (impl w) = true ->
  getters_ (impl w) = [] ->
  max_buffer_size_ (impl w) <= size (buffer_ (impl w)) ->
  exec (do_put putter c) w =
    {| impl := with_putters (impl w) (putters_ (impl w) ++ [putter]);
       io_service_ := io_service_ w ++ [work] |}.
Proof.
  intros Ho Hg Hge. open_world w. apply Nat.ltb_ge in Hge.
  unfold do_put, exec, bind, get_impl, size.
  cbn [impl open_ negb getters_ front buffer_ max_buffer_size_].
  rewrite Hge. reflexivity.
Qed.

(** ** The five outcomes of a get *)

Lemma do_get_refill (w : world) (getter : channel_op) (c : bool)
    (v : T) (b : deque) (p : channel_op) (ps : op_queue) :
  buffer_ (impl w) = v :: b ->
  putters_ (impl w) = p :: ps ->
  exec (do_get getter c) w =
    {| impl := with_putters (with_buffer (impl w) (b ++ [value_ p])) ps;
       io_service_ := io_service_ w ++
         [post_deferred p; post_immediate (set_value getter v) c] |}.
Proof.
  intros Hb Hp. open_world w. unfold do_get. run_monad.
  unfold with_putters, with_buffer; cbn -[resize assign_back].
  now rewrite assign_back_resize, <- app_assoc.
Qed.

Lemma do_get_buffered (w : world) (getter : channel_op) (c : bool)
    (v : T) (b : deque) :
  buffer_ (impl w) = v :: b ->
  putters_ (impl w) = [] ->
  exec (do_get getter c) w =
    {| impl := with_buffer (impl w) b;
       io_service_ := io_service_ w ++ [post_immediate (set_value getter v) c] |}.
Proof.
  intros Hb Hp. open_world w. reflexivity.
Qed.

Lemma do_get_handoff (w : world) (getter : channel_op) (c : bool)
    (p : channel_op) (ps : op_queue) :
  buffer_ (impl w) = [] ->
  putters_ (impl w) = p :: ps ->
  exec (do_get getter c) w =
    {| impl := with_putters (impl w) ps;
       io_service_ := io_service_ w ++
         [post_deferred p; post_immediate (set_value getter (value_ p)) c] |}.
Proof.
  intros Hb Hp. open_world w. unfold do_get. run_monad.
  now rewrite <- app_assoc.
Qed.

Lemma do_get_parked (w : world) (getter : channel_op) (c : bool) :
  buffer_ (impl w) = [] ->
  putters_ (impl w) = [] ->
  open_ (impl w) = true ->
  exec (do_get getter c) w =
    {| impl := with_getters (impl w) (getters_ (impl w) ++ [getter]);
       io_service_ := io_service_ w ++ [work] |}.
Proof.
  intros Hb Hp Ho. open_world w. reflexivity.
Qed.

Lemma do_get_closed (w : world) (getter : channel_op) (c : bool) :
  buffer_ (impl w) = [] ->
  putters_ (impl w) = [] ->
  open_ (impl w) = false ->
  exec (do_get getter c) w =
    {| impl := impl w;
       io_service_ := io_service_ w ++ [post_immediate (set_ec getter broken_pipe) c] |}.
Proof.
  intros Hb Hp Ho. open_world w. reflexivity.
Qed.

Lemma do_put_outcome (w : world) (putter : channel_op) (c : bool) :
  put_outcome w putter c (exec (do_put putter c) w).
Proof.
  destruct (open_ (impl w)) eqn:Ho.
  - destruct (getters_ (impl w)) as [|g gs] eqn:Hg.
    + destruct (Nat.lt_ge_cases (size (buffer_ (impl w))) (max_buffer_size_ (impl w))).
      * rewrite do_put_buffered by assumption. now constructor.
      * rewrite do_put_parked by assumption. now constructor.
    + rewrite (do_put_handoff _ putter c _ _ Ho Hg). now constructor.
  - rewrite do_put_closed by assumption. now constructor.
Qed.

Lemma do_get_outcome (w : world) (getter : channel_op) (c : bool) :
  get_outcome w getter c (exec (do_get getter c) w).
Proof.
  destruct (buffer_ (impl w)) as [|v b] eqn:Hb;
    destruct (putters_ (impl w)) as [|p ps] eqn:Hp.
  - destruct (open_ (impl w)) eqn:Ho.
    + rewrite do_get_parked by assumption. now constructor.
    + rewrite do_get_closed by assumption. now constructor.
  - rewrite (do_get_handoff _ getter c _ _ Hb Hp). now constructor.
  - rewrite (do_get_buffered _ getter c _ _ Hb Hp). now constructor.
  - rewrite (do_get_refill _ getter c _ _ _ _ Hb Hp). now econstructor; eauto.
Qed.

(** [ready] is the condition under which a get completes at once with a
    value. *)
Lemma ready_get_completes (w : world) (getter : channel_op) (c : bool) :
  ready (impl w) = true ->
  getters_ (impl (exec (do_get getter c) w)) = getters_ (impl w) /\
  exists v log,
    io_service_ (exec (do_get getter c) w) =
      log ++ [post_immediate (set_value getter v) c].
Proof.
  intros Hr.
  destruct (do_get_outcome w getter c) as [v b p ps Hb Hp|v b Hb Hp|p ps Hb Hp|Hb Hp Ho|Hb Hp Ho];
    unfold ready in Hr; rewrite ?Hb, ?Hp in Hr; try discriminate Hr;
    (split; [reflexivity|]).
  - exists v, (io_service_ w ++ [post_deferred p]). now rewrite <- app_assoc.
  - now exists v, (io_service_ w).
  - exists (value_ p), (io_service_ w ++ [post_deferred p]). now rewrite <- app_assoc.
Qed.

(** ** Close and cancel *)

Lemma exec_bind {A B : Type} (m : M A) (k : A -> M B) (w : world) :
  exec (bind m k) w = exec (k (fst (m w))) (exec m w).
Proof. unfold exec, bind. now destruct (m w). Qed.

Lemma exec_complete_all (ec : error_code) (ops : op_queue) (w : world) :
  exec (complete_all ec ops) w =
    {| impl := impl w; io_service_ := io_service_ w ++ map (resolved ec) ops |}.
Proof.
  revert w. induction ops as [|op rest IH]; intros [i log].
  - cbn. now rewrite app_nil_r.
  - cbn [complete_all map]. rewrite exec_bind, IH. cbn.
    now rewrite <- app_assoc.
Qed.

Lemma exec_close (w : world) :
  exec close w =
    {| impl := {| open_ := false;
                  max_buffer_size_ := max_buffer_size_ (impl w);
                  putters_ := [];
                  getters_ := [];
                  buffer_ := buffer_ (impl w) |};
       io_service_ := io_service_ w ++
         map (resolved broken_pipe) (getters_ (impl w) ++ putters_ (impl w)) |}.
Proof.
  destruct w as [[o m ps gs b] log]. unfold close.
  rewrite !exec_bind, !exec_complete_all. cbn.
  now rewrite map_app, app_assoc.
Qed.

Lemma exec_cancel (w : world) :
  exec cancel w =
    {| impl := with_putters (with_getters (impl w) []) [];
       io_service_ := io_service_ w ++
         map (resolved operation_cancelled)
           (getters_ (impl w) ++ putters_ (impl w)) |}.
Proof.
  destruct w as [[o m ps gs b] log]. unfold cancel.
  rewrite !exec_bind, !exec_complete_all. cbn.
  now rewrite map_app, app_assoc.
Qed.

(** ** Histories *)

Lemma exec_serve_all_cons (r : request) (rs : list request) (w : world) :
  exec (serve_all (r :: rs)) w = exec (serve_all rs) (exec (serve r) w).
Proof.
  cbn [serve_all]. now rewrite exec_bind.
Qed.

Lemma exec_serve_all_app (rs1 rs2 : list request) (w : world) :
  exec (serve_all (rs1 ++ rs2)) w = exec (serve_all rs2) (exec (serve_all rs1) w).
Proof.
  revert w. induction rs1 as [|r rs1 IH]; intros w.
  - reflexivity.
  - cbn [app]. now rewrite !exec_serve_all_cons, IH.
Qed.

Lemma history_eq (cap : nat) (rs : list request) :
  history cap rs =
    exec (serve_all rs)
      {| impl := with_max_buffer_size new_implementation cap; io_service_ := [] |}.
Proof. reflexivity. Qed.

Lemma history_app (cap : nat) (rs1 rs2 : list request) :
  history cap (rs1 ++ rs2) = exec (serve_all rs2) (history cap rs1).
Proof. now rewrite !history_eq, exec_serve_all_app. Qed.

(** An invariant of every request holds along every history. *)
Lemma serve_all_invariant (P : world -> Prop) :
  (forall w r, P w -> P (exec (serve r) w)) ->
  forall rs w, P w -> P (exec (serve_all rs) w).
Proof.
  intros Hstep rs. induction rs as [|r rs IH]; intros w Hw.
  - exact Hw.
  - rewrite exec_serve_all_cons. apply IH, Hstep, Hw.
Qed.

Lemma history_invariant (P : world -> Prop) (cap : nat) :
  P {| impl := with_max_buffer_size new_implementation cap; io_service_ := [] |} ->
  (forall w r, P w -> P (exec (serve r) w)) ->
  forall rs, P (history cap rs).
Proof.
  intros H0 Hstep rs. rewrite history_eq. now apply serve_all_invariant.
Qed.

(** ** Invariants of the requests *)

(** Case analysis on the request served and on the branch taken. *)
Ltac serve_cases w r :=
  destruct r; cbn [serve];
  [ unfold async_put; cbv zeta;
    match goal with
    | |- context [exec (do_put ?p ?c) w] => destruct (do_put_outcome w p c)
    end
  | unfold async_get; cbv zeta;
    match goal with
    | |- context [exec (do_get ?p ?c) w] => destruct (do_get_outcome w p c)
    end
  | unfold open
  | rewrite exec_close
  | rewrite exec_cancel ];
  open_world w.

Lemma serve_max_buffer_size (w : world) (r : request) :
  max_buffer_size_ (impl (exec (serve r) w)) = max_buffer_size_ (impl w).
Proof. serve_cases w r; reflexivity. Qed.

Lemma serve_buffer_bounded (w : world) (r : request) :
  buffer_bounded (impl w) -> buffer_bounded (impl (exec (serve r) w)).
Proof.
  unfold buffer_bounded, size. intros H.
  serve_cases w r; rewrite ?length_app; cbn [length] in *; lia.
Qed.

Lemma serve_queues_exclusive (w : world) (r : request) :
  queues_exclusive (impl w) -> queues_exclusive (impl (exec (serve r) w)).
Proof.
  unfold queues_exclusive. intros H.
  serve_cases w r; auto; destruct H as [H|H]; try discriminate H; auto.
Qed.

Lemma serve_closed_has_no_waiter (w : world) (r : request) :
  closed_has_no_waiter (impl w) -> closed_has_no_waiter (impl (exec (serve r) w)).
Proof.
  unfold closed_has_no_waiter. intros H.
  serve_cases w r; auto; intros Hc; try discriminate Hc;
    destruct (H Hc) as [Hp Hg]; try discriminate Hp; try discriminate Hg; auto.
Qed.

Lemma serve_waiters_unresolved (w : world) (r : request) :
  waiters_unresolved (impl w) -> waiters_unresolved (impl (exec (serve r) w)).
Proof.
  unfold waiters_unresolved. intros [Hp Hg].
  serve_cases w r; auto; split; auto;
    try (apply Forall_app; split; auto; repeat constructor);
    try (now inversion Hp); try (now inversion Hg).
Qed.

(** Every state of a history satisfies the four invariants. *)
Lemma history_buffer_bounded (cap : nat) (rs : list request) :
  buffer_bounded (impl (history cap rs)).
Proof.
  apply (history_invariant (fun w => buffer_bounded (impl w))).
  - unfold buffer_bounded. cbn. lia.
  - intros w r. apply serve_buffer_bounded.
Qed.

Lemma history_max_buffer_size (cap : nat) (rs : list request) :
  max_buffer_size_ (impl (history cap rs)) = cap.
Proof.
  apply (history_invariant (fun w => max_buffer_size_ (impl w) = cap)).
  - reflexivity.
  - intros w r H. now rewrite serve_max_buffer_size.
Qed.

Lemma history_queues_exclusive (cap : nat) (rs : list request) :
  queues_exclusive (impl (history cap rs)).
Proof.
  apply (history_invariant (fun w => queues_exclusive (impl w))).
  - now left.
  - intros w r. apply serve_queues_exclusive.
Qed.

Lemma history_closed_has_no_waiter (cap : nat) (rs : list request) :
  closed_has_no_waiter (impl (history cap rs)).
Proof.
  apply (history_invariant (fun w => closed_has_no_waiter (impl w))).
  - intros _. now split.
  - intros w r. apply serve_closed_has_no_waiter.
Qed.

Lemma history_waiters_unresolved (cap : nat) (rs : list request) :
  waiters_unresolved (impl (history cap rs)).
Proof.
  apply (history_invariant (fun w => waiters_unresolved (impl w))).
  - split; constructor.
  - intros w r. apply serve_waiters_unresolved.
Qed.

(** ** The log only grows *)

(** What a request does to the channel, and the calls it makes, do not depend
    on the calls already in the log. *)
Lemma serve_frame (r : request) (i : implementation_type) (log : io_service_impl) :
  exec (serve r) {| impl := i; io_service_ := log |} =
    {| impl := impl (exec (serve r) {| impl := i; io_service_ := [] |});
       io_service_ :=
         log ++ io_service_ (exec (serve r) {| impl := i; io_service_ := [] |}) |}.
Proof.
  destruct r; cbn [serve].
  - unfold async_put. cbv zeta.
    match goal with
    | |- context [exec (do_put ?p ?c) {| impl := i; io_service_ := [] |}] =>
        destruct (do_put_outcome {| impl := i; io_service_ := [] |} p c)
          as [Ho|g gs Ho Hg|Ho Hg Hlt|Ho Hg Hge]
    end; cbn [impl io_service_] in *.
    + now rewrite do_put_closed by exact Ho.
    + now rewrite (do_put_handoff _ _ _ g gs) by assumption.
    + now rewrite do_put_buffered by assumption.
    + now rewrite do_put_parked by assumption.
  - unfold async_get. cbv zeta.
    match goal with
    | |- context [exec (do_get ?p ?c) {| impl := i; io_service_ := [] |}] =>
        destruct (do_get_outcome {| impl := i; io_service_ := [] |} p c)
          as [v b p' ps Hb Hp|v b Hb Hp|p' ps Hb Hp|Hb Hp Ho|Hb Hp Ho]
    end; cbn [impl io_service_] in *.
    + now rewrite (do_get_refill _ _ _ v b p' ps) by assumption.
    + now rewrite (do_get_buffered _ _ _ v b) by assumption.
    + now rewrite (do_get_handoff _ _ _ p' ps) by assumption.
    + now rewrite do_get_parked by assumption.
    + now rewrite do_get_closed by assumption.
  - cbn. now rewrite app_nil_r.
  - now rewrite !exec_close.
  - now rewrite !exec_cancel.
Qed.

Lemma serve_all_frame (rs : list request) (i : implementation_type)
    (log : io_service_impl) :
  exec (serve_all rs) {| impl := i; io_service_ := log |} =
    {| impl := impl (exec (serve_all rs) {| impl := i; io_service_ := [] |});
       io_service_ :=
         log ++ io_service_ (exec (serve_all rs) {| impl := i; io_service_ := [] |}) |}.
Proof.
  revert i log. induction rs as [|r rs IH]; intros i log.
  - cbn. now rewrite app_nil_r.
  - rewrite !exec_serve_all_cons. rewrite (serve_frame r i log).
    destruct (exec (serve r) {| impl := i; io_service_ := [] |}) as [i1 out1].
    cbn [impl io_service_].
    rewrite (IH i1 (log ++ out1)), (IH i1 out1). cbn [impl io_service_].
    now rewrite app_assoc.
Qed.

(** ** Counting completions *)

Arguments dispatched : simpl never.
Arguments waiting : simpl never.
Arguments submitted : simpl never.

Lemma dispatched_app (sel : Handler -> bool) (l1 l2 : io_service_impl) :
  dispatched sel (l1 ++ l2) = dispatched sel l1 + dispatched sel l2.
Proof. unfold dispatched. now rewrite filter_app, length_app. Qed.

Lemma waiting_app (sel : Handler -> bool) (q1 q2 : op_queue) :
  waiting sel (q1 ++ q2) = waiting sel q1 + waiting sel q2.
Proof. unfold waiting. now rewrite filter_app, length_app. Qed.

Lemma dispatched_resolved (sel : Handler -> bool) (ec : error_code) (q : op_queue) :
  dispatched sel (map (resolved ec) q) = waiting sel q.
Proof.
  unfold dispatched, waiting. induction q as [|op q IH]; [reflexivity|].
  cbn. destruct (sel (handler_ op)); cbn; now rewrite IH.
Qed.

Lemma dispatched_work (sel : Handler -> bool) (l : io_service_impl) :
  dispatched sel (work :: l) = dispatched sel l.
Proof. reflexivity. Qed.

Lemma submitted_app (sel : Handler -> bool) (rs1 rs2 : list request) :
  submitted sel (rs1 ++ rs2) = submitted sel rs1 + submitted sel rs2.
Proof. unfold submitted. now rewrite filter_app, length_app. Qed.

Ltac split_on_sel sel :=
  repeat match goal with
         | |- context [sel ?h] => destruct (sel h)
         end.

(** Serving a request conserves the operations: those completed plus those
    queued grow by the one the request submits, if any. *)
Lemma serve_conserves (sel : Handler -> bool) (w : world) (r : request) :
  dispatched sel (io_service_ (exec (serve r) w))
    + queued sel (impl (exec (serve r) w)) =
  dispatched sel (io_service_ w) + queued sel (impl w)
    + submitted sel [r].
Proof.
  serve_cases w r; unfold queued;
    cbn [impl io_service_ putters_ getters_ with_putters with_getters
         with_buffer with_open];
    rewrite ?dispatched_app, ?waiting_app, ?dispatched_resolved, ?waiting_app;
    unfold dispatched, waiting, submitted; cbn;
    split_on_sel sel; cbn; lia.
Qed.

Lemma serve_all_conserves (sel : Handler -> bool) (rs : list request) (w : world) :
  dispatched sel (io_service_ (exec (serve_all rs) w))
    + queued sel (impl (exec (serve_all rs) w)) =
  dispatched sel (io_service_ w) + queued sel (impl w) + submitted sel rs.
Proof.
  revert w. induction rs as [|r rs IH]; intros w.
  - change (exec (serve_all []) w) with w. unfold submitted. cbn. lia.
  - rewrite exec_serve_all_cons, IH, serve_conserves.
    change (r :: rs) with ([r] ++ rs). rewrite submitted_app. lia.
Qed.

Lemma history_conserves (sel : Handler -> bool) (cap : nat) (rs : list request) :
  dispatched sel (io_service_ (history cap rs)) + queued sel (impl (history cap rs)) =
  submitted sel rs.
Proof. rewrite history_eq, serve_all_conserves. reflexivity. Qed.


(** [destroy] completes whatever is still queued. *)
Lemma destroy_completes (sel : Handler -> bool) (w : world) :
  dispatched sel (io_service_ (exec destroy w)) =
    dispatched sel (io_service_ w) + queued sel (impl w) /\
  queued sel (impl (exec destroy w)) = 0.
Proof.
  unfold destroy. rewrite exec_cancel. cbn [impl io_service_].
  rewrite dispatched_app, dispatched_resolved, waiting_app.
  unfold queued, waiting. cbn. lia.
Qed.

(** ** Draining a closed channel *)

Lemma drain_closed (hs : list Handler) (w : world) :
  open_ (impl w) = false ->
  putters_ (impl w) = [] ->
  exec (serve_all (map req_async_get hs)) w =
    {| impl := with_buffer (impl w) (skipn (length hs) (buffer_ (impl w)));
       io_service_ := io_service_ w ++ drain_calls hs (buffer_ (impl w)) |}.
Proof.
  revert w. induction hs as [|h hs IH]; intros w Ho Hp.
  - destruct w as [[o m ps gs b] log]. cbn. now rewrite app_nil_r.
  - cbn [map]. rewrite exec_serve_all_cons. cbn [serve]. unfold async_get. cbv zeta.
    destruct (buffer_ (impl w)) as [|v b] eqn:Hb.
    + rewrite do_get_closed by assumption.
      rewrite IH by assumption. cbn [impl io_service_ drain_calls length skipn].
      rewrite Hb, <- app_assoc. destruct hs; cbn [skipn length]; now rewrite <- Hb.
    + rewrite (do_get_buffered _ _ _ v b) by assumption.
      rewrite IH by assumption. cbn [impl io_service_ drain_calls length skipn
        with_buffer buffer_ open_ max_buffer_size_ putters_ getters_].
      now rewrite <- app_assoc.
Qed.

(** ** The calls a request adds *)

Ltac split_all :=
  repeat match goal with
         | |- _ /\ _ => split; [try reflexivity|]
         end.

Lemma calls_added_eq (m : M unit) (w : world) (i : implementation_type)
    (out : list io_call) :
  exec m w = {| impl := i; io_service_ := io_service_ w ++ out |} ->
  calls_added m w = out.
Proof.
  intros E. unfold calls_added. rewrite E. cbn [io_service_].
  rewrite skipn_app, skipn_all, Nat.sub_diag. reflexivity.
Qed.

(** Proves that the calls of a drain are the deliveries written out field
    by field; used inside the proofs that state deliveries. *)
Ltac drained_is_delivered :=
  let hs := fresh "hs" in
  let IH := fresh "IH" in
  let vs := fresh "vs" in
  intros hs; induction hs as [|? hs IH]; intros vs; [reflexivity|];
  destruct vs; cbn [drain_calls deliveries]; now rewrite IH.

Lemma resolved_eq (ec : error_code) (op : channel_op) :
  resolved ec op =
    post_immediate {| handler_ := handler_ op; ec_ := ec; value_ := value_ op |}
      (is_continuation (handler_ op)).
Proof. reflexivity. Qed.

Lemma resolved_completes_with (ec : error_code) (q : op_queue) :
  Forall (fun call => exists op c, call = post_immediate op c /\ ec_ op = ec)
    (map (resolved ec) q).
Proof.
  apply Forall_forall. intros call Hin. apply in_map_iff in Hin.
  destruct Hin as [op [<- _]]. rewrite resolved_eq. now eexists _, _.
Qed.

(** ** The put and get algorithms *)


(** C2. An asynchronous get does one of these things.  If the buffer is not
    empty, its front value is popped and stored in the value slot of the
    getter; if moreover a putter is queued, the value of the front putter is
    appended at the back of the buffer, that putter is popped and posted for
    deferred completion; the getter is posted for immediate completion
    without error.  If the buffer is empty and a putter is queued, the value
    of the front putter is stored in the getter, the putter is popped and
    posted for deferred completion and the getter for immediate completion.
    If the buffer is empty, no putter is queued and the channel is open, the
    getter is appended at the back of [getters_], [work_started] is called
    and nothing is posted.  (In the remaining case the getter is posted at
    once with [broken_pipe].)  The completed getter is written out field by
    field: its handler, no error, and the value it received. *)
Theorem async_get_on_channel (w : world) (handler : Handler) :
  let c := is_continuation handler in
  let after := exec (async_get handler) w in
  open_ (impl after) = open_ (impl w) /\
  max_buffer_size_ (impl after) = max_buffer_size_ (impl w) /\
  match buffer_ (impl w), putters_ (impl w) with
  | v :: b, p :: ps =>
      buffer_ (impl after) = b ++ [value_ p] /\
      putters_ (impl after) = ps /\
      getters_ (impl after) = getters_ (impl w) /\
      io_service_ after =
        io_service_ w ++
          [post_deferred p;
           post_immediate {| handler_ := handler; ec_ := no_error; value_ := v |} c]
  | v :: b, [] =>
      buffer_ (impl after) = b /\
      putters_ (impl after) = [] /\
      getters_ (impl after) = getters_ (impl w) /\
      io_service_ after =
        io_service_ w ++
          [post_immediate {| handler_ := handler; ec_ := no_error; value_ := v |} c]
  | [], p :: ps =>
      buffer_ (impl after) = [] /\
      putters_ (impl after) = ps /\
      getters_ (impl after) = getters_ (impl w) /\
      io_service_ after =
        io_service_ w ++
          [post_deferred p;
           post_immediate
             {| handler_ := handler; ec_ := no_error; value_ := value_ p |} c]
  | [], [] =>
      buffer_ (impl after) = [] /\
      putters_ (impl after) = [] /\
      if open_ (impl w) then
        getters_ (impl after) =
          getters_ (impl w)
            ++ [{| handler_ := handler; ec_ := no_error; value_ := T_default |}] /\
        io_service_ after = io_service_ w ++ [work]
      else
        getters_ (impl after) = getters_ (impl w) /\
        io_service_ after =
          io_service_ w ++
            [post_immediate
               {| handler_ := handler; ec_ := broken_pipe; value_ := T_default |} c]
  end.
Proof.
  intros c after. subst after. unfold async_get. cbv zeta. fold c.
  destruct (buffer_ (impl w)) as [|v b] eqn:Hb;
    destruct (putters_ (impl w)) as [|p ps] eqn:Hp.
  - destruct (open_ (impl w)) eqn:Ho.
    + rewrite do_get_parked by assumption. cbn. now rewrite Hb, Hp, Ho.
    + rewrite do_get_closed by assumption. cbn. now rewrite Hb, Hp, Ho.
  - rewrite (do_get_handoff _ _ c _ _ Hb Hp). cbn. now rewrite Hb.
  - rewrite (do_get_buffered _ _ c _ _ Hb Hp). now cbn.
  - rewrite (do_get_refill _ _ c _ _ _ _ Hb Hp). now cbn.
Qed.

(** ** Close and cancel *)

(** C3. Whatever the state of the channel, [close] leaves it closed, with
    both wait queues empty and with the buffer and the capacity it had.  The
    calls it makes are exactly one immediate completion for every operation
    that was queued in [getters_] or [putters_], each carrying the handler
    and value of that operation and the error [broken_pipe]: every queued
    operation is completed once, every call added completes an operation
    with [broken_pipe], and nothing else is posted. *)
Theorem close_fails_the_waiters (w : world) :
  let after := exec close w in
  open_ (impl after) = false /\
  putters_ (impl after) = [] /\
  getters_ (impl after) = [] /\
  buffer_ (impl after) = buffer_ (impl w) /\
  max_buffer_size_ (impl after) = max_buffer_size_ (impl w) /\
  io_service_ after =
    io_service_ w ++
      map (fun op =>
             post_immediate
               {| handler_ := handler_ op; ec_ := broken_pipe; value_ := value_ op |}
               (is_continuation (handler_ op)))
          (getters_ (impl w) ++ putters_ (impl w)) /\
  (forall sel : Handler -> bool,
     dispatched sel (calls_added close w) = queued sel (impl w)) /\
  Forall (fun call => exists op c, call = post_immediate op c /\ ec_ op = broken_pipe)
    (calls_added close w).
Proof.
  cbv zeta. rewrite (calls_added_eq close w _ _ (exec_close w)), exec_close.
  repeat (split; [reflexivity|]). split.
  - intros sel. rewrite dispatched_resolved, waiting_app. unfold queued. lia.
  - apply resolved_completes_with.
Qed.

(** C9. Closing twice is closing once: the second [close] changes nothing
    and posts nothing, so the channel is closed, its queues are empty, and
    its buffer and capacity are those the first [close] left. *)
Theorem close_is_idempotent (w : world) :
  exec close (exec close w) = exec close w /\
  open_ (impl (exec close (exec close w))) = false /\
  putters_ (impl (exec close (exec close w))) = [] /\
  getters_ (impl (exec close (exec close w))) = [] /\
  buffer_ (impl (exec close (exec close w))) = buffer_ (impl (exec close w)) /\
  max_buffer_size_ (impl (exec close (exec close w))) =
    max_buffer_size_ (impl (exec close w)).
Proof.
  rewrite !exec_close. cbn. now rewrite app_nil_r.
Qed.

(** ** Errors at submission *)

(** C10. A put on a closed channel, and a get on a closed channel whose
    buffer is empty and that has no queued putter, hand the operation over
    with [broken_pipe] and leave the channel state (flag, capacity, buffer
    and both queues) exactly as it was. *)
Theorem failing_submission_keeps_state (w : world) (op : channel_op) (c : bool) :
  (open_ (impl w) = false ->
     impl (exec (do_put op c) w) = impl w /\
     io_service_ (exec (do_put op c) w) =
       io_service_ w ++ [post_immediate (set_ec op broken_pipe) c]) /\
  (open_ (impl w) = false ->
   buffer_ (impl w) = [] ->
   putters_ (impl w) = [] ->
     impl (exec (do_get op c) w) = impl w /\
     io_service_ (exec (do_get op c) w) =
       io_service_ w ++ [post_immediate (set_ec op broken_pipe) c]).
Proof.
  split.
  - intros Ho. rewrite do_put_closed by assumption. now split.
  - intros Ho Hb Hp. rewrite do_get_closed by assumption. now split.
Qed.

(** C4 (amended). Whatever the state of the channel, [cancel] leaves the
    open flag, the buffer and the capacity as they were and empties both
    queues.  The calls it makes are exactly one immediate completion for
    every operation that was queued in [getters_] or [putters_], each
    carrying the handler and value of that operation and the error
    [operation_cancelled], which is not [broken_pipe].  After a cancel on an
    open channel the next put is buffered if the buffer has a free place and
    parked otherwise, the next get receives the front of the buffer if there
    is one and is parked otherwise, and any further requests change the
    channel and call the io_service exactly as they do on any open channel of
    the same capacity with the same buffer contents and no queued
    operation. *)
Theorem cancel_aborts_the_waiters (w : world) :
  let after := exec cancel w in
  open_ (impl after) = open_ (impl w) /\
  buffer_ (impl after) = buffer_ (impl w) /\
  max_buffer_size_ (impl after) = max_buffer_size_ (impl w) /\
  putters_ (impl after) = [] /\
  getters_ (impl after) = [] /\
  io_service_ after =
    io_service_ w ++
      map (fun op =>
             post_immediate
               {| handler_ := handler_ op; ec_ := operation_cancelled;
                  value_ := value_ op |}
               (is_continuation (handler_ op)))
          (getters_ (impl w) ++ putters_ (impl w)) /\
  (forall sel : Handler -> bool,
     dispatched sel (calls_added cancel w) = queued sel (impl w)) /\
  Forall (fun call =>
            exists op c, call = post_immediate op c /\ ec_ op = operation_cancelled)
    (calls_added cancel w) /\
  operation_cancelled <> broken_pipe /\
  (open_ (impl w) = true ->
   forall (value : T) (handler : Handler),
     (if size (buffer_ (impl w)) <? max_buffer_size_ (impl w) then
        buffer_ (impl (exec (async_put value handler) after)) =
          buffer_ (impl w) ++ [value] /\
        putters_ (impl (exec (async_put value handler) after)) = [] /\
        calls_added (async_put value handler) after =
          [post_immediate
             {| handler_ := handler; ec_ := no_error; value_ := value |}
             (is_continuation handler)]
      else
        buffer_ (impl (exec (async_put value handler) after)) = buffer_ (impl w) /\
        putters_ (impl (exec (async_put value handler) after)) =
          [{| handler_ := handler; ec_ := no_error; value_ := value |}] /\
        calls_added (async_put value handler) after = [work]) /\
     match buffer_ (impl w) with
     | v :: b =>
         buffer_ (impl (exec (async_get handler) after)) = b /\
         getters_ (impl (exec (async_get handler) after)) = [] /\
         calls_added (async_get handler) after =
           [post_immediate
              {| handler_ := handler; ec_ := no_error; value_ := v |}
              (is_continuation handler)]
     | [] =>
         buffer_ (impl (exec (async_get handler) after)) = [] /\
         getters_ (impl (exec (async_get handler) after)) =
           [{| handler_ := handler; ec_ := no_error; value_ := T_default |}] /\
         calls_added (async_get handler) after = [work]
     end) /\
  forall (other : implementation_type) (log : io_service_impl) (rs : list request),
    open_ (impl w) = true ->
    open_ other = true ->
    max_buffer_size_ other = max_buffer_size_ (impl w) ->
    buffer_ other = buffer_ (impl w) ->
    putters_ other = [] ->
    getters_ other = [] ->
    impl (exec (serve_all rs) after) =
      impl (exec (serve_all rs) {| impl := other; io_service_ := log |}) /\
    exists out,
      io_service_ (exec (serve_all rs) after) = io_service_ after ++ out /\
      io_service_ (exec (serve_all rs) {| impl := other; io_service_ := log |}) =
        log ++ out.
Proof.
  cbv zeta. rewrite (calls_added_eq cancel w _ _ (exec_cancel w)), exec_cancel.
  repeat (split; [reflexivity|]). split; [|split; [|split; [|split]]].
  - intros sel. rewrite dispatched_resolved, waiting_app. unfold queued. lia.
  - apply resolved_completes_with.
  - discriminate.
  - intros Ho value handler. unfold async_put, async_get. cbv zeta.
    set (after := {| impl := with_putters (with_getters (impl w) []) [];
                     io_service_ := _ |}).
    assert (Ho' : open_ (impl after) = true) by exact Ho.
    assert (Hg' : getters_ (impl after) = []) by reflexivity.
    assert (Hp' : putters_ (impl after) = []) by reflexivity.
    split.
    + destruct (Nat.ltb_spec (size (buffer_ (impl w))) (max_buffer_size_ (impl w)))
        as [Hlt|Hge].
      * rewrite (calls_added_eq _ after _ _ (do_put_buffered after _ _ Ho' Hg' Hlt)).
        rewrite (do_put_buffered after _ _ Ho' Hg' Hlt). now split_all.
      * rewrite (calls_added_eq _ after _ _ (do_put_parked after _ _ Ho' Hg' Hge)).
        rewrite (do_put_parked after _ _ Ho' Hg' Hge). now split_all.
    + destruct (buffer_ (impl w)) as [|v b] eqn:Hb.
      * assert (Hb' : buffer_ (impl after) = []) by exact Hb.
        rewrite (calls_added_eq _ after _ _ (do_get_parked after _ _ Hb' Hp' Ho')).
        rewrite (do_get_parked after _ _ Hb' Hp' Ho'). now split_all.
      * assert (Hb' : buffer_ (impl after) = v :: b) by exact Hb.
        rewrite (calls_added_eq _ after _ _ (do_get_buffered after _ _ v b Hb' Hp')).
        rewrite (do_get_buffered after _ _ v b Hb' Hp'). now split_all.
  - intros other log rs Ho Ho' Hm Hb Hp Hg.
    assert (E : with_putters (with_getters (impl w) []) [] = other).
    { destruct w as [[o m ps gs b] log0], other as [o' m' ps' gs' b'].
      cbn in *. now subst. }
    rewrite E. rewrite (serve_all_frame rs other log), (serve_all_frame rs other (_ ++ _)).
    cbn [impl io_service_]. split; [reflexivity|].
    now exists (io_service_ (exec (serve_all rs) {| impl := other; io_service_ := [] |})).
Qed.

(** ** Invariants of a channel *)

(** C5. On a channel constructed with capacity [cap], after any sequence of
    requests (puts, gets, opens, closes, cancels) the capacity is still [cap]
    and the buffer holds at most [cap] values.  In particular, from any state
    whose buffer is within the capacity, neither the put algorithm (which
    appends only below the capacity) nor the get algorithm (whose refill
    follows a pop) takes the buffer beyond it. *)
Theorem buffer_within_capacity (cap : nat) (rs : list request)
    (w : world) (op : channel_op) (c : bool) :
  (size (buffer_ (impl (history cap rs))) <= cap /\
   max_buffer_size_ (impl (history cap rs)) = cap) /\
  (size (buffer_ (impl w)) <= max_buffer_size_ (impl w) ->
   size (buffer_ (impl (exec (do_put op c) w))) <= max_buffer_size_ (impl w) /\
   size (buffer_ (impl (exec (do_get op c) w))) <= max_buffer_size_ (impl w)).
Proof.
  split.
  - pose proof (history_buffer_bounded cap rs) as H.
    unfold buffer_bounded in H. rewrite history_max_buffer_size in H.
    split; [exact H | apply history_max_buffer_size].
  - unfold size. intros H. split.
    + destruct (do_put_outcome w op c); open_world w;
        rewrite ?length_app; cbn [length]; unfold size in *; lia.
    + destruct (do_get_outcome w op c); open_world w;
        rewrite ?length_app; cbn [length] in *; lia.
Qed.

(** C6. In every state reached from a freshly constructed channel, one of
    the two wait queues is empty.  In such a state a put that finds a queued
    getter completes the pair (the getter deferred, the putter at once) and
    queues nothing, and a get that finds a queued putter completes the pair
    (the putter deferred, the getter at once) and queues nothing. *)
Theorem waiters_on_one_side_only (cap : nat) (rs : list request) :
  let w := history cap rs in
  (putters_ (impl w) = [] \/ getters_ (impl w) = []) /\
  (forall (value : T) (handler : Handler),
     match getters_ (impl w) with
     | getter :: rest =>
         let after := exec (async_put value handler) w in
         putters_ (impl after) = putters_ (impl w) /\
         getters_ (impl after) = rest /\
         io_service_ after =
           io_service_ w ++
             [post_deferred (set_value getter value);
              post_immediate (channel_put_op value handler)
                (is_continuation handler)]
     | [] => True
     end) /\
  (forall (handler : Handler),
     match putters_ (impl w) with
     | putter :: rest =>
         let after := exec (async_get handler) w in
         getters_ (impl after) = getters_ (impl w) /\
         putters_ (impl after) = rest /\
         exists v,
           io_service_ after =
             io_service_ w ++
               [post_deferred putter;
                post_immediate (set_value (channel_get_op handler) v)
                  (is_continuation handler)]
     | [] => True
     end).
Proof.
  cbv zeta. split; [apply history_queues_exclusive|]. split.
  - intros value handler.
    destruct (getters_ (impl (history cap rs))) as [|g gs] eqn:Hg; [exact I|].
    assert (Ho : open_ (impl (history cap rs)) = true).
    { destruct (open_ (impl (history cap rs))) eqn:Ho; [reflexivity|].
      destruct (history_closed_has_no_waiter cap rs Ho) as [_ Hg'].
      rewrite Hg in Hg'. discriminate Hg'. }
    unfold async_put. cbv zeta.
    rewrite (do_put_handoff _ _ _ g gs Ho Hg). now repeat split.
  - intros handler.
    destruct (putters_ (impl (history cap rs))) as [|p ps] eqn:Hp; [exact I|].
    unfold async_get. cbv zeta.
    destruct (buffer_ (impl (history cap rs))) as [|v b] eqn:Hb.
    + rewrite (do_get_handoff _ _ _ p ps Hb Hp). repeat split. now exists (value_ p).
    + rewrite (do_get_refill _ _ _ v b p ps Hb Hp). repeat split. now exists v.
Qed.

(** ** Errors *)

Ltac no_such_call Hex Hp Hg :=
  apply Exists_exists in Hex;
  destruct Hex as [call [Hin [op' [Eop Hec]]]];
  cbn in Hin;
  repeat match goal with
         | H : _ \/ _ |- _ => destruct H
         | H : False |- _ => contradiction H
         end;
  subst; cbn in Eop; try discriminate Eop;
  injection Eop as <-; cbn in Hec;
  try discriminate Hec;
  try (inversion Hp; subst; unfold unresolved in *; congruence);
  try (inversion Hg; subst; unfold unresolved in *; congruence).

(** C7. A put or get receives [broken_pipe] from the algorithm exactly in
    these cases.  A put on a closed channel is posted for immediate
    completion with [broken_pipe], and a get on a closed channel whose buffer
    is empty and that has no queued putter likewise.  Conversely, on a
    channel whose queued operations carry no error (as in every history:
    [history_waiters_unresolved]), a put adds a completion carrying
    [broken_pipe] to the log, for whatever operation, only if the channel is
    closed, and a get only if the channel is closed, its buffer is empty and
    no putter is queued.  On a closed channel with no queued putter,
    successive gets receive the buffered values in order, each without
    error, until the buffer is exhausted, and every later get receives
    [broken_pipe]. *)
Theorem broken_pipe_exactly_when_closed (w : world) (value : T)
    (handler : Handler) (hs : list Handler) :
  (open_ (impl w) = false ->
   exec (async_put value handler) w =
     {| impl := impl w;
        io_service_ := io_service_ w ++
          [post_immediate
             {| handler_ := handler; ec_ := broken_pipe; value_ := value |}
             (is_continuation handler)] |}) /\
  (open_ (impl w) = false ->
   buffer_ (impl w) = [] ->
   putters_ (impl w) = [] ->
   exec (async_get handler) w =
     {| impl := impl w;
        io_service_ := io_service_ w ++
          [post_immediate
             {| handler_ := handler; ec_ := broken_pipe; value_ := T_default |}
             (is_continuation handler)] |}) /\
  (waiters_unresolved (impl w) ->
   (Exists (completes_with broken_pipe) (calls_added (async_put value handler) w)
    <-> open_ (impl w) = false) /\
   (Exists (completes_with broken_pipe) (calls_added (async_get handler) w)
    <-> open_ (impl w) = false /\ buffer_ (impl w) = [] /\ putters_ (impl w) = [])) /\
  (open_ (impl w) = false ->
   putters_ (impl w) = [] ->
   exec (serve_all (map req_async_get hs)) w =
     {| impl := with_buffer (impl w) (skipn (length hs) (buffer_ (impl w)));
        io_service_ := io_service_ w ++ deliveries hs (buffer_ (impl w)) |}).
Proof.
  split; [|split; [|split]].
  - intros Ho. unfold async_put. cbv zeta. now rewrite do_put_closed.
  - intros Ho Hb Hp. unfold async_get. cbv zeta. now rewrite do_get_closed.
  - intros [Hp Hg]. unfold async_put, async_get. cbv zeta. split; split.
    + intros Hex. destruct (open_ (impl w)) eqn:Ho; [exfalso|reflexivity].
      destruct (getters_ (impl w)) as [|g gs] eqn:Eg.
      * destruct (Nat.lt_ge_cases (size (buffer_ (impl w)))
                    (max_buffer_size_ (impl w))) as [Hlt|Hge].
        -- rewrite (calls_added_eq _ w _ _ (do_put_buffered w _ _ Ho Eg Hlt)) in Hex.
           no_such_call Hex Hp Hg.
        -- rewrite (calls_added_eq _ w _ _ (do_put_parked w _ _ Ho Eg Hge)) in Hex.
           no_such_call Hex Hp Hg.
      * rewrite (calls_added_eq _ w _ _ (do_put_handoff w _ _ g gs Ho Eg)) in Hex.
        no_such_call Hex Hp Hg.
    + intros Ho. rewrite (calls_added_eq _ w _ _ (do_put_closed w _ _ Ho)).
      apply Exists_cons_hd. now eexists.
    + intros Hex.
      destruct (buffer_ (impl w)) as [|v b] eqn:Eb;
        destruct (putters_ (impl w)) as [|p ps] eqn:Ep.
      * destruct (open_ (impl w)) eqn:Ho; [exfalso|now split_all].
        rewrite (calls_added_eq _ w _ _ (do_get_parked w _ _ Eb Ep Ho)) in Hex.
        no_such_call Hex Hp Hg.
      * exfalso.
        rewrite (calls_added_eq _ w _ _ (do_get_handoff w _ _ p ps Eb Ep)) in Hex.
        no_such_call Hex Hp Hg.
      * exfalso.
        rewrite (calls_added_eq _ w _ _ (do_get_buffered w _ _ v b Eb Ep)) in Hex.
        no_such_call Hex Hp Hg.
      * exfalso.
        rewrite (calls_added_eq _ w _ _ (do_get_refill w _ _ v b p ps Eb Ep)) in Hex.
        no_such_call Hex Hp Hg.
    + intros [Ho [Hb Hq]].
      rewrite (calls_added_eq _ w _ _ (do_get_closed w _ _ Hb Hq Ho)).
      apply Exists_cons_hd. now eexists.
  - intros Ho Hp.
    assert (Hd : forall hs vs, drain_calls hs vs = deliveries hs vs)
      by drained_is_delivered.
    rewrite <- Hd. now apply drain_closed.
Qed.

(** C8. Take any history of a channel in which exactly one request submits
    an operation selected by [sel] (its handler is used by no other request).
    At every moment that operation is either queued and not yet completed,
    or completed once and no longer queued; after [destroy] it has been
    completed exactly once and is not queued.  If its submission parked it
    (the request called [work_started] and posted nothing), then no
    completion of it precedes that call and exactly one follows it once the
    operation has left the queue, at the latest at [destroy].  A completion
    carries an [error_code]: success, [broken_pipe] or
    [operation_cancelled]. *)
Theorem every_operation_completes_once (cap : nat) (rs1 : list request)
    (r : request) (rs2 : list request) (sel : Handler -> bool) :
  submitted sel rs1 = 0 ->
  submitted sel [r] = 1 ->
  submitted sel rs2 = 0 ->
  let before := history cap rs1 in
  let w := history cap (rs1 ++ r :: rs2) in
  let final := exec destroy w in
  dispatched sel (io_service_ w) + queued sel (impl w) = 1 /\
  dispatched sel (io_service_ final) = 1 /\
  queued sel (impl final) = 0 /\
  (io_service_ (exec (serve r) before) = io_service_ before ++ [work] ->
   dispatched sel (io_service_ before) = 0 /\
   (exists later,
      io_service_ w = io_service_ before ++ work :: later /\
      dispatched sel later + queued sel (impl w) = 1) /\
   (exists later,
      io_service_ final = io_service_ before ++ work :: later /\
      dispatched sel later = 1)).
Proof.
  intros H1 Hr H2 before w final.
  assert (Hw : dispatched sel (io_service_ w) + queued sel (impl w) = 1).
  { subst w. rewrite history_conserves.
    change (r :: rs2) with ([r] ++ rs2). rewrite !submitted_app. lia. }
  destruct (destroy_completes sel w) as [Hd Hq]. fold final in Hd, Hq.
  split; [exact Hw|]. split; [lia|]. split; [exact Hq|].
  intros Hpark.
  assert (Hb : dispatched sel (io_service_ before) = 0).
  { pose proof (history_conserves sel cap rs1) as Hc. fold before in Hc. lia. }
  split; [exact Hb|].
  assert (Eio : exists later, io_service_ w = io_service_ before ++ work :: later).
  { subst w. rewrite history_app, exec_serve_all_cons. fold before.
    destruct (exec (serve r) before) as [i2 log2] eqn:E2. cbn [io_service_] in Hpark.
    rewrite (serve_all_frame rs2 i2 log2). cbn [io_service_]. subst log2.
    rewrite <- app_assoc. cbn [app]. eauto. }
  destruct Eio as [later Eio].
  assert (Ef : exists later', io_service_ final = io_service_ before ++ work :: later').
  { subst final. unfold destroy. rewrite exec_cancel. cbn [io_service_].
    rewrite Eio, <- app_assoc. cbn [app]. eauto. }
  destruct Ef as [later' Ef]. split.
  - exists later. split; [exact Eio|].
    rewrite Eio, dispatched_app, dispatched_work in Hw. lia.
  - exists later'. split; [exact Ef|].
    rewrite Ef, dispatched_app, dispatched_work in Hd. lia.
Qed.

(** * Further properties of the header

    Properties of [is_open], [open], [ready], [async_put], [async_get],
    [do_put] and [do_get] read off the source; none of them involves
    [construct], [close], [cancel] or [destroy]. *)

Lemma immediate_calls_app (l1 l2 : io_service_impl) :
  immediate_calls (l1 ++ l2) = immediate_calls l1 ++ immediate_calls l2.
Proof. apply filter_app. Qed.

Lemma deferred_ops_app (l1 l2 : io_service_impl) :
  deferred_ops (l1 ++ l2) = deferred_ops l1 ++ deferred_ops l2.
Proof.
  induction l1 as [|[op b|op|] l1 IH]; cbn; now rewrite ?IH.
Qed.

Lemma work_count_app (l1 l2 : io_service_impl) :
  work_count (l1 ++ l2) = work_count l1 + work_count l2.
Proof. unfold work_count. now rewrite filter_app, length_app. Qed.

(** ** [ready] *)

(** X1. [ready] tells exactly whether a get completes at once with a value:
    it holds if and only if [async_get] ends by posting the getter for
    immediate completion with a value stored in it and no error. *)
Theorem ready_iff_get_completes (w : world) (handler : Handler) :
  ready (impl w) = true <->
  exists v log,
    io_service_ (exec (async_get handler) w) =
      log ++ [post_immediate (set_value (channel_get_op handler) v)
                (is_continuation handler)].
Proof.
  unfold async_get. cbv zeta. split.
  - intros Hr. now apply ready_get_completes.
  - intros [v [log E]].
    destruct (do_get_outcome w (channel_get_op handler) (is_continuation handler))
      as [v' b p ps Hb Hp|v' b Hb Hp|p ps Hb Hp|Hb Hp Ho|Hb Hp Ho];
      unfold ready; rewrite ?Hb, ?Hp; try reflexivity;
      cbn [io_service_] in E; apply app_inj_tail in E; destruct E as [_ E];
      discriminate E.
Qed.

(** ** No needless waiting *)

Ltac wait_solve Hp Hg :=
  try (assert (HP := Hp ltac:(first [assumption | discriminate])));
  try (assert (HG := Hg ltac:(first [assumption | discriminate]));
       destruct HG; subst);
  rewrite ?length_app; cbn [length] in *;
  first [ now contradiction
        | discriminate
        | lia
        | now split
        | now auto ].

(** X2. No operation waits while it could be served.  In a
    default-constructed channel, and from then on after every [do_put],
    [do_get] and [open], a putter is queued only while the buffer is full and
    a getter is queued only while the buffer is empty and no putter is
    queued. *)
Theorem no_waiter_waits_needlessly (w : world) (op : channel_op) (c : bool) :
  waits_only_when_needed new_implementation /\
  (waits_only_when_needed (impl w) ->
   waits_only_when_needed (impl (exec (do_put op c) w)) /\
   waits_only_when_needed (impl (exec (do_get op c) w)) /\
   waits_only_when_needed (impl (exec open w))).
Proof.
  split.
  - split; intros H; now contradiction H.
  - unfold waits_only_when_needed. intros [Hp Hg]. split; [|split].
    + destruct (do_put_outcome w op c); open_world w; unfold size in *;
        (split; intros Hq); wait_solve Hp Hg.
    + destruct (do_get_outcome w op c); open_world w; unfold size in *;
        (split; intros Hq); wait_solve Hp Hg.
    + open_world w. now split.
Qed.

(** ** First in, first out *)

Lemma skipn_pop (n : nat) (q : op_queue) : skipn n (pop q) = skipn (S n) q.
Proof. destruct q; [now rewrite !skipn_nil | reflexivity]. Qed.

(** One get takes the oldest value in flight and releases the oldest
    putter. *)
Lemma get_takes_oldest (w : world) (h : Handler) (v : T) (rest : list T) :
  in_flight (impl w) = v :: rest ->
  in_flight (impl (exec (async_get h) w)) = rest /\
  putters_ (impl (exec (async_get h) w)) = pop (putters_ (impl w)) /\
  getters_ (impl (exec (async_get h) w)) = getters_ (impl w) /\
  open_ (impl (exec (async_get h) w)) = open_ (impl w) /\
  max_buffer_size_ (impl (exec (async_get h) w)) = max_buffer_size_ (impl w) /\
  exists out,
    io_service_ (exec (async_get h) w) = io_service_ w ++ out /\
    immediate_calls out =
      [post_immediate (set_value (channel_get_op h) v) (is_continuation h)] /\
    deferred_ops out = firstn 1 (putters_ (impl w)).
Proof.
  unfold async_get, in_flight. cbv zeta. intros E.
  destruct (do_get_outcome w (channel_get_op h) (is_continuation h))
    as [v' b p ps Hb Hp|v' b Hb Hp|p ps Hb Hp|Hb Hp Ho|Hb Hp Ho];
    open_world w; try discriminate E; injection E as Ev Er; subst.
  - unfold get_value. rewrite <- app_assoc. split_all.
    now exists [post_deferred p;
                post_immediate (set_value (channel_get_op h) v) (is_continuation h)].
  - split_all.
    now exists [post_immediate (set_value (channel_get_op h) v) (is_continuation h)].
  - split_all.
    now exists [post_deferred p;
                post_immediate (set_value (channel_get_op h) (value_ p))
                  (is_continuation h)].
Qed.

(** Successive gets take the values in flight oldest first. *)
Lemma gets_take_in_flight (hs : list Handler) (w : world) :
  length hs <= length (in_flight (impl w)) ->
  let after := exec (serve_all (map req_async_get hs)) w in
  in_flight (impl after) = skipn (length hs) (in_flight (impl w)) /\
  putters_ (impl after) = skipn (length hs) (putters_ (impl w)) /\
  getters_ (impl after) = getters_ (impl w) /\
  open_ (impl after) = open_ (impl w) /\
  max_buffer_size_ (impl after) = max_buffer_size_ (impl w) /\
  exists out,
    io_service_ after = io_service_ w ++ out /\
    immediate_calls out = drain_calls hs (in_flight (impl w)) /\
    deferred_ops out = firstn (length hs) (putters_ (impl w)).
Proof.
  cbv zeta. revert w. induction hs as [|h hs IH]; intros w Hlen.
  - cbn. split_all. exists []. now rewrite app_nil_r.
  - cbn [map]. rewrite exec_serve_all_cons. cbn [serve length] in *.
    destruct (in_flight (impl w)) as [|v rest] eqn:E; [cbn in Hlen; lia|].
    destruct (get_takes_oldest w h v rest E)
      as [E1 [Hp1 [Hg1 [Ho1 [Hm1 [out1 [Hio1 [Him1 Hde1]]]]]]]].
    cbn [length] in Hlen.
    destruct (IH (exec (async_get h) w)) as [E2 [Hp2 [Hg2 [Ho2 [Hm2 [out2 [Hio2 [Him2 Hde2]]]]]]]].
    { rewrite E1. lia. }
    rewrite E2, Hp2, Hg2, Ho2, Hm2, E1, Hp1, Hg1, Ho1, Hm1, skipn_pop.
    split_all. exists (out1 ++ out2).
    rewrite Hio2, Hio1, immediate_calls_app, deferred_ops_app, Him1, Him2,
      Hde1, Hde2, E1, Hp1, <- app_assoc.
    split_all. destruct (putters_ (impl w)); cbn [pop firstn app];
      [now rewrite firstn_nil | reflexivity].
Qed.

(** X3. Gets are served first in, first out.  On any channel, open or closed,
    holding at least as many values in flight (buffered, or carried by
    queued putters) as there are gets, the immediate completions added are
    exactly one per get, in order, each carrying the handler of the get, no
    error and the next value in flight, oldest first; the putters released
    are the oldest ones, posted deferred in the order they were queued; what
    remains in flight keeps its order, and the getters queue, the flag and
    the capacity are untouched. *)
Theorem gets_receive_oldest_first (hs : list Handler) (w : world) :
  length hs <= length (in_flight (impl w)) ->
  let after := exec (serve_all (map req_async_get hs)) w in
  in_flight (impl after) = skipn (length hs) (in_flight (impl w)) /\
  putters_ (impl after) = skipn (length hs) (putters_ (impl w)) /\
  getters_ (impl after) = getters_ (impl w) /\
  open_ (impl after) = open_ (impl w) /\
  max_buffer_size_ (impl after) = max_buffer_size_ (impl w) /\
  immediate_calls (calls_added (serve_all (map req_async_get hs)) w) =
    deliveries hs (in_flight (impl w)) /\
  deferred_ops (calls_added (serve_all (map req_async_get hs)) w) =
    firstn (length hs) (putters_ (impl w)) /\
  Forall (completes_with no_error)
    (immediate_calls (calls_added (serve_all (map req_async_get hs)) w)).
Proof.
  intros Hlen after.
  destruct (gets_take_in_flight hs w Hlen)
    as [E [Hp [Hg [Ho [Hm [out [Hio [Him Hde]]]]]]]].
  fold after in E, Hp, Hg, Ho, Hm, Hio.
  assert (Eout : calls_added (serve_all (map req_async_get hs)) w = out).
  { unfold calls_added. fold after. rewrite Hio.
    now rewrite skipn_app, skipn_all, Nat.sub_diag. }
  split; [exact E|]. split; [exact Hp|]. split; [exact Hg|].
  split; [exact Ho|]. split; [exact Hm|].
  assert (Hd : forall hs vs, drain_calls hs vs = deliveries hs vs)
    by drained_is_delivered.
  rewrite Eout, Him, Hde, Hd.
  split; [reflexivity|]. split; [reflexivity|].
  clear - Hlen. revert Hlen. generalize (in_flight (impl w)) as vs.
  induction hs as [|h hs IH]; intros vs Hlen; [constructor|].
  destruct vs as [|v vs]; [cbn in Hlen; lia|].
  cbn [deliveries]. constructor.
  - now eexists.
  - apply IH. cbn in Hlen. lia.
Qed.

(** One put on an open channel without queued getter goes behind whatever
    is in flight. *)
Lemma put_queues_behind (w : world) (v : T) (h : Handler) :
  open_ (impl w) = true ->
  getters_ (impl w) = [] ->
  (putters_ (impl w) <> [] -> max_buffer_size_ (impl w) <= size (buffer_ (impl w))) ->
  in_flight (impl (exec (async_put v h) w)) = in_flight (impl w) ++ [v] /\
  open_ (impl (exec (async_put v h) w)) = true /\
  getters_ (impl (exec (async_put v h) w)) = [] /\
  max_buffer_size_ (impl (exec (async_put v h) w)) = max_buffer_size_ (impl w) /\
  (putters_ (impl (exec (async_put v h) w)) <> [] ->
   max_buffer_size_ (impl (exec (async_put v h) w))
     <= size (buffer_ (impl (exec (async_put v h) w)))).
Proof.
  unfold async_put, in_flight. cbv zeta. intros Ho Hg Hp.
  destruct (do_put_outcome w (channel_put_op v h) (is_continuation h))
    as [Ho'|g gs Ho' Hg'|Ho' Hg' Hlt|Ho' Hg' Hge];
    try congruence; open_world w; unfold size in *.
  - destruct ps as [|p ps].
    + cbn. rewrite !app_nil_r. split_all. intros Hq. now contradiction Hq.
    + assert (m <= length b) by (apply Hp; discriminate). lia.
  - rewrite map_app, app_assoc. split_all. intros _. exact Hge.
Qed.

(** X4. Puts queue up first in, first out.  On an open channel with no
    queued getter, where putters wait only while the buffer is full,
    successive puts extend the values in flight at the back, in the order
    submitted, whether they are buffered or parked; the channel stays open
    and without getters, and putters still wait only while the buffer is
    full. *)
Theorem puts_queue_behind (puts : list (T * Handler)) (w : world) :
  open_ (impl w) = true ->
  getters_ (impl w) = [] ->
  (putters_ (impl w) <> [] -> max_buffer_size_ (impl w) <= size (buffer_ (impl w))) ->
  let after := exec (serve_all (req_puts puts)) w in
  in_flight (impl after) = in_flight (impl w) ++ map fst puts /\
  open_ (impl after) = true /\
  getters_ (impl after) = [] /\
  max_buffer_size_ (impl after) = max_buffer_size_ (impl w) /\
  (putters_ (impl after) <> [] ->
   max_buffer_size_ (impl after) <= size (buffer_ (impl after))).
Proof.
  cbv zeta. revert w. induction puts as [|[v h] puts IH]; intros w Ho Hg Hp.
  - cbn. now rewrite app_nil_r.
  - cbn [req_puts map fst snd]. rewrite exec_serve_all_cons. cbn [serve].
    destruct (put_queues_behind w v h Ho Hg Hp) as [E1 [Ho1 [Hg1 [Hm1 Hp1]]]].
    destruct (IH _ Ho1 Hg1 Hp1) as [E2 [Ho2 [Hg2 [Hm2 Hp2]]]].
    fold (req_puts puts). rewrite E2, E1, Hm2, Hm1, <- app_assoc.
    repeat split; auto. rewrite <- Hm1, <- Hm2. exact Hp2.
Qed.

(** X5. The channel is first in, first out whatever its capacity.  On an
    open channel with nothing buffered and nobody waiting, any number of puts
    followed by as many gets delivers the values to the gets in the order
    they were put: the immediate completions the gets add are exactly one
    per get, in order, each carrying the handler of the get, no error and
    the value of the put of the same rank.  The gets complete deferred
    exactly the putters that had to wait, and leave the channel in the state
    it started from. *)
Theorem channel_is_fifo (w : world) (puts : list (T * Handler)) (hs : list Handler) :
  open_ (impl w) = true ->
  getters_ (impl w) = [] ->
  putters_ (impl w) = [] ->
  buffer_ (impl w) = [] ->
  length hs = length puts ->
  let filled := exec (serve_all (req_puts puts)) w in
  let after := exec (serve_all (map req_async_get hs)) filled in
  impl after = impl w /\
  immediate_calls (calls_added (serve_all (map req_async_get hs)) filled) =
    map (fun hp =>
           post_immediate
             {| handler_ := fst hp; ec_ := no_error; value_ := fst (snd hp) |}
             (is_continuation (fst hp)))
        (combine hs puts) /\
  deferred_ops (calls_added (serve_all (map req_async_get hs)) filled) =
    putters_ (impl filled).
Proof.
  intros Ho Hg Hp Hb Hlen filled after.
  destruct (puts_queue_behind puts w Ho Hg) as [Ef [Hof [Hgf [Hmf _]]]].
  { rewrite Hp. intros H. now contradiction H. }
  fold filled in Ef, Hof, Hgf, Hmf.
  assert (Ew : in_flight (impl w) = []) by (unfold in_flight; now rewrite Hb, Hp).
  rewrite Ew in Ef. cbn [app] in Ef.
  assert (Hn : length hs = length (in_flight (impl filled))).
  { now rewrite Ef, length_map. }
  destruct (gets_take_in_flight hs filled)
    as [Ea [Hpa [Hga [Hoa [Hma [out [Hio [Him Hde]]]]]]]].
  { lia. }
  fold after in Ea, Hpa, Hga, Hoa, Hma, Hio.
  assert (Eout : calls_added (serve_all (map req_async_get hs)) filled = out).
  { unfold calls_added. fold after. rewrite Hio.
    now rewrite skipn_app, skipn_all, Nat.sub_diag. }
  rewrite Hn, skipn_all in Ea. unfold in_flight in Ea.
  apply app_eq_nil in Ea. destruct Ea as [Hba Hpa'].
  apply map_eq_nil in Hpa'. split; [|split].
  - destruct (impl after) as [o m ps gs b], (impl w) as [o' m' ps' gs' b'].
    cbn in *. congruence.
  - assert (Hd : forall hs vs, drain_calls hs vs = deliveries hs vs)
      by drained_is_delivered.
    rewrite Eout, Him, Ef, Hd.
    clear - Hlen. revert puts Hlen.
    induction hs as [|h hs IH]; intros [|[v h'] puts] Hlen;
      try discriminate Hlen; [reflexivity|].
    cbn. f_equal. apply IH. now injection Hlen.
  - rewrite Eout, Hde. apply firstn_all2. rewrite Hn. unfold in_flight.
    rewrite length_app, length_map. lia.
Qed.

(** ** Waiting getters *)

(** X6. Queued getters are served first in, first out.  On an open channel
    with at least as many queued getters as there are puts, each put hands
    its value to the oldest remaining getter, which is posted deferred and
    then the putter at once; the buffer and the putters queue are not
    touched. *)
Theorem puts_feed_waiting_getters (puts : list (T * Handler)) (w : world) :
  open_ (impl w) = true ->
  length puts <= length (getters_ (impl w)) ->
  exec (serve_all (req_puts puts)) w =
    {| impl := with_getters (impl w) (skipn (length puts) (getters_ (impl w)));
       io_service_ := io_service_ w ++ feed_calls (getters_ (impl w)) puts |}.
Proof.
  revert w. induction puts as [|[v h] puts IH]; intros w Ho Hlen.
  - destruct w as [[o m ps gs b] log]. cbn.
    destruct gs; now rewrite app_nil_r.
  - cbn [req_puts map fst snd]. fold (req_puts puts).
    rewrite exec_serve_all_cons. cbn [serve]. unfold async_put. cbv zeta.
    destruct (getters_ (impl w)) as [|g gs] eqn:Hg; [cbn in Hlen; lia|].
    rewrite (do_put_handoff w _ _ g gs Ho Hg).
    cbn [length] in Hlen. rewrite IH.
    + destruct w as [[o m ps gs0 b] log]. cbn. now rewrite <- app_assoc.
    + destruct w as [[o m ps gs0 b] log]. exact Ho.
    + destruct w as [[o m ps gs0 b] log]. cbn. lia.
Qed.

Lemma gets_park (hs : list Handler) (w : world) :
  open_ (impl w) = true ->
  buffer_ (impl w) = [] ->
  putters_ (impl w) = [] ->
  exec (serve_all (map req_async_get hs)) w =
    {| impl := with_getters (impl w) (getters_ (impl w) ++ map channel_get_op hs);
       io_service_ := io_service_ w ++ repeat work (length hs) |}.
Proof.
  revert w. induction hs as [|h hs IH]; intros w Ho Hb Hp.
  - destruct w as [[o m ps gs b] log]. cbn. now rewrite !app_nil_r.
  - cbn [map]. rewrite exec_serve_all_cons. cbn [serve]. unfold async_get. cbv zeta.
    rewrite do_get_parked by assumption.
    destruct w as [[o m ps gs b] log]. cbn in Ho, Hb, Hp. subst.
    rewrite IH by reflexivity. cbn. now rewrite <- !app_assoc.
Qed.

(** X7. Gets that arrive first wait in order and are matched in order.  On an
    open channel with nothing buffered and nobody waiting, any number of gets
    are all parked (one [work_started] each, nothing posted); as many puts
    then complete them in the order the gets were submitted, each getter
    deferred with the value of its put and each putter at once; the channel
    ends in the state it started from. *)
Theorem gets_then_puts_round_trip (w : world) (hs : list Handler)
    (puts : list (T * Handler)) :
  open_ (impl w) = true ->
  getters_ (impl w) = [] ->
  putters_ (impl w) = [] ->
  buffer_ (impl w) = [] ->
  length puts = length hs ->
  exec (serve_all (map req_async_get hs ++ req_puts puts)) w =
    {| impl := impl w;
       io_service_ :=
         io_service_ w ++ repeat work (length hs)
           ++ feed_calls (map channel_get_op hs) puts |}.
Proof.
  intros Ho Hg Hp Hb Hlen.
  rewrite exec_serve_all_app, gets_park by assumption.
  rewrite puts_feed_waiting_getters.
  - destruct w as [[o m ps gs b] log]. cbn in *. subst. cbn.
    rewrite Hlen, <- (length_map channel_get_op hs), skipn_all.
    now rewrite <- app_assoc.
  - destruct w as [[o m ps gs b] log]. exact Ho.
  - destruct w as [[o m ps gs b] log]. cbn in *. subst.
    cbn. rewrite length_map. lia.
Qed.

(** ** Rendezvous *)

(** X8. A default-constructed channel has capacity 0, and a channel of
    capacity 0 whose buffer is empty never buffers: neither [do_put] nor
    [do_get] puts anything in the buffer, and a put on it, when it is open
    and no getter is queued, is always parked. *)
Theorem rendezvous_never_buffers (w : world) (op : channel_op) (c : bool) :
  max_buffer_size_ new_implementation = 0 /\
  buffer_ new_implementation = [] /\
  (max_buffer_size_ (impl w) = 0 ->
   buffer_ (impl w) = [] ->
   buffer_ (impl (exec (do_put op c) w)) = [] /\
   buffer_ (impl (exec (do_get op c) w)) = [] /\
   (open_ (impl w) = true ->
    getters_ (impl w) = [] ->
    exec (do_put op c) w =
      {| impl := with_putters (impl w) (putters_ (impl w) ++ [op]);
         io_service_ := io_service_ w ++ [work] |})).
Proof.
  split; [reflexivity|]. split; [reflexivity|].
  intros Hm Hb. split; [|split].
  - destruct (do_put_outcome w op c) as [Ho|g gs Ho Hg|Ho Hg Hlt|Ho Hg Hge];
      try exact Hb. rewrite Hm in Hlt. lia.
  - destruct (do_get_outcome w op c)
      as [v b p ps Hb' Hp|v b Hb' Hp|p ps Hb' Hp|Hb' Hp Ho|Hb' Hp Ho];
      try exact Hb; rewrite Hb in Hb'; discriminate Hb'.
  - intros Ho Hg. apply do_put_parked; try assumption. rewrite Hm. lia.
Qed.

(** ** Work accounting *)

(** X9. The calls to [work_started] are balanced.  Before any call, and from
    then on after every [do_put], [do_get] and [open], the number of
    [work_started] calls equals the number of deferred completions posted
    plus the number of operations still queued: an operation is counted
    exactly when it is parked, and a parked operation leaves its queue only
    by being posted deferred. *)
Theorem work_started_is_balanced (w : world) (op : channel_op) (c : bool) :
  work_balanced boot /\
  (work_balanced w ->
   work_balanced (exec (do_put op c) w) /\
   work_balanced (exec (do_get op c) w) /\
   work_balanced (exec open w)).
Proof.
  split; [reflexivity|].
  unfold work_balanced. intros H. split; [|split].
  - destruct (do_put_outcome w op c); open_world w;
      rewrite ?filter_app, ?deferred_ops_app, ?length_app in *;
      cbn [deferred_ops filter length] in *; lia.
  - destruct (do_get_outcome w op c); open_world w;
      rewrite ?filter_app, ?deferred_ops_app, ?length_app in *;
      cbn [deferred_ops filter length] in *; lia.
  - open_world w. exact H.
Qed.

(** ** Reopening *)

(** X10. After [open], a submission is not refused: the only immediate
    completion that an [async_put] or [async_get] adds to the log is that of
    the submitted operation itself, and it carries no error. *)
Theorem reopened_channel_accepts (w : world) (value : T) (handler : Handler)
    (op : channel_op) (c : bool) :
  (In (post_immediate op c)
      (io_service_ (exec (async_put value handler) (exec open w))) ->
   In (post_immediate op c) (io_service_ w) \/
   (handler_ op = handler /\ ec_ op = no_error)) /\
  (In (post_immediate op c)
      (io_service_ (exec (async_get handler) (exec open w))) ->
   In (post_immediate op c) (io_service_ w) \/
   (handler_ op = handler /\ ec_ op = no_error)).
Proof.
  unfold async_put, async_get. cbv zeta. split; intros Hin.
  - destruct (do_put_outcome (exec open w) (channel_put_op value handler)
                (is_continuation handler)) as [Ho|g gs Ho Hg|Ho Hg Hlt|Ho Hg Hge];
      try discriminate Ho;
      cbn [io_service_ exec open] in Hin; apply in_app_or in Hin;
      destruct Hin as [Hin|Hin]; try (left; exact Hin);
      cbn in Hin; intuition (try discriminate);
      match goal with
      | H : post_immediate _ _ = post_immediate _ _ |- _ =>
          injection H as <- _; right; now split
      end.
  - destruct (do_get_outcome (exec open w) (channel_get_op handler)
                (is_continuation handler))
      as [v b p ps Hb Hp|v b Hb Hp|p ps Hb Hp|Hb Hp Ho|Hb Hp Ho];
      try discriminate Ho;
      cbn [io_service_ exec open] in Hin; apply in_app_or in Hin;
      destruct Hin as [Hin|Hin]; try (left; exact Hin);
      cbn in Hin; intuition (try discriminate);
      match goal with
      | H : post_immediate _ _ = post_immediate _ _ |- _ =>
          injection H as <- _; right; now split
      end.
Qed.

(** ** What put and get leave alone *)

(** X11. Neither the put nor the get algorithm opens or closes the channel
    or changes its capacity, whatever branch is taken: [is_open] answers the
    same before and after. *)
Theorem put_get_keep_flag_and_capacity (w : world) (op : channel_op) (c : bool) :
  is_open (impl (exec (do_put op c) w)) = is_open (impl w) /\
  max_buffer_size_ (impl (exec (do_put op c) w)) = max_buffer_size_ (impl w) /\
  is_open (impl (exec (do_get op c) w)) = is_open (impl w) /\
  max_buffer_size_ (impl (exec (do_get op c) w)) = max_buffer_size_ (impl w).
Proof.
  unfold is_open. split_all.
  - now destruct (do_put_outcome w op c).
  - now destruct (do_put_outcome w op c).
  - now destruct (do_get_outcome w op c).
  - now destruct (do_get_outcome w op c).
Qed.

(** ** Backpressure *)

(** X12. Puts fill the buffer and then wait.  On an open channel with no
    queued getter and [k] free places in the buffer, the first [k] of any
    successive puts are appended to the buffer in order and posted at once,
    and all the others are parked in order behind the putters already
    queued, with one [work_started] each and nothing posted. *)
Theorem puts_fill_then_park (puts : list (T * Handler)) (w : world) :
  open_ (impl w) = true ->
  getters_ (impl w) = [] ->
  let k := max_buffer_size_ (impl w) - size (buffer_ (impl w)) in
  exec (serve_all (req_puts puts)) w =
    {| impl :=
         with_putters
           (with_buffer (impl w) (buffer_ (impl w) ++ map fst (firstn k puts)))
           (putters_ (impl w)
              ++ map (fun p => channel_put_op (fst p) (snd p)) (skipn k puts));
       io_service_ :=
         io_service_ w
           ++ map (fun p => post_immediate (channel_put_op (fst p) (snd p))
                              (is_continuation (snd p)))
                  (firstn k puts)
           ++ repeat work (length puts - k) |}.
Proof.
  cbv zeta. revert w. induction puts as [|[v h] puts IH]; intros w Ho Hg.
  - destruct w as [[o m ps gs b] log]. cbn.
    now rewrite firstn_nil, skipn_nil, !app_nil_r.
  - cbn [req_puts map fst snd]. fold (req_puts puts).
    rewrite exec_serve_all_cons. cbn [serve]. unfold async_put. cbv zeta.
    destruct (Nat.lt_ge_cases (size (buffer_ (impl w))) (max_buffer_size_ (impl w)))
      as [Hlt|Hge].
    + rewrite do_put_buffered by assumption.
      destruct w as [[o m ps gs b] log]. cbn in Ho, Hg, Hlt. subst.
      rewrite IH by reflexivity. unfold size in *. cbn. rewrite length_app. cbn.
      replace (m - length b) with (S (m - (length b + 1))) by lia.
      cbn. now rewrite <- !app_assoc.
    + rewrite do_put_parked by assumption.
      destruct w as [[o m ps gs b] log]. cbn in Ho, Hg, Hge. subst.
      rewrite IH by reflexivity. unfold size in *. cbn.
      replace (m - length b) with 0 by lia.
      cbn. rewrite Nat.sub_0_r, <- !app_assoc. reflexivity.
Qed.

End ChannelService.

(** * Concrete channels

    Channels of natural numbers whose handlers are numbered; a handler with
    an even number is a continuation. *)

(** Scenario 1 of the specification: with capacity 2, two puts are buffered,
    the third is queued, and a get returns 1 and releases the third put. *)
Example capacity_two_scenario :
  history 0 Nat.even 2
    [req_async_put 1 10; req_async_put 2 20; req_async_put 3 30; req_async_get 40] =
  {| impl := {| open_ := true; max_buffer_size_ := 2;
                putters_ := []; getters_ := []; buffer_ := [2; 3] |};
     io_service_ :=
       [post_immediate (mk_channel_op 10 no_error 1) true;
        post_immediate (mk_channel_op 20 no_error 2) true;
        work;
        post_deferred (mk_channel_op 30 no_error 3);
        post_immediate (mk_channel_op 40 no_error 1) true] |}.
Proof. reflexivity. Qed.

(** Scenario 2: on a rendezvous channel the put waits for the get. *)
Example rendezvous_scenario :
  history 0 Nat.even 0 [req_async_put 5 11; req_async_get 40] =
  {| impl := {| open_ := true; max_buffer_size_ := 0;
                putters_ := []; getters_ := []; buffer_ := [] |};
     io_service_ :=
       [work;
        post_deferred (mk_channel_op 11 no_error 5);
        post_immediate (mk_channel_op 40 no_error 5) true] |}.
Proof. reflexivity. Qed.

(** Scenario 3: a buffered value survives [close]; the get after it fails. *)
Example close_then_drain_scenario :
  io_service_
    (history 0 Nat.even 1
       [req_async_put 7 10; req_close; req_async_get 40; req_async_get 50]) =
  [post_immediate (mk_channel_op 10 no_error 7) true;
   post_immediate (mk_channel_op 40 no_error 7) true;
   post_immediate (mk_channel_op 50 broken_pipe 0) true].
Proof. reflexivity. Qed.

(** Scenario 4: cancelled getters, then the channel is used again. *)
Example cancel_then_reuse_scenario :
  history 0 Nat.even 1
    [req_async_get 10; req_async_get 21; req_cancel;
     req_async_put 9 30; req_async_get 40] =
  {| impl := {| open_ := true; max_buffer_size_ := 1;
                putters_ := []; getters_ := []; buffer_ := [] |};
     io_service_ :=
       [work; work;
        post_immediate (mk_channel_op 10 operation_cancelled 0) true;
        post_immediate (mk_channel_op 21 operation_cancelled 0) false;
        post_immediate (mk_channel_op 30 no_error 9) true;
        post_immediate (mk_channel_op 40 no_error 9) true] |}.
Proof. reflexivity. Qed.

(** Scenario 5: [close] fails the queued putter and keeps the buffer. *)
Example close_with_queued_putter_scenario :
  history 0 Nat.even 1 [req_async_put 1 10; req_async_put 2 20; req_close] =
  {| impl := {| open_ := false; max_buffer_size_ := 1;
                putters_ := []; getters_ := []; buffer_ := [1] |};
     io_service_ :=
       [post_immediate (mk_channel_op 10 no_error 1) true;
        work;
        post_immediate (mk_channel_op 20 broken_pipe 2) true] |}.
Proof. reflexivity. Qed.


(** C2 at an open channel of capacity 1 that buffers 7 while the put of 8
    waits: the get receives 7 and the put of 8 moves into the buffer. *)
Lemma async_get_on_channel_witness :
  let w := @mk_world nat nat
             (mk_implementation_type true 1 [mk_channel_op 3 no_error 8] [] [7]) [] in
  exec (async_get 0 Nat.even 2) w =
    {| impl := mk_implementation_type true 1 [] [] [8];
       io_service_ :=
         [post_deferred (mk_channel_op 3 no_error 8);
          post_immediate (mk_channel_op 2 no_error 7) true] |} /\
  buffer_ (impl (exec (async_get 0 Nat.even 2) w)) = [8] /\
  putters_ (impl (exec (async_get 0 Nat.even 2) w)) = [] /\
  io_service_ (exec (async_get 0 Nat.even 2) w) =
    [post_deferred (mk_channel_op 3 no_error 8);
     post_immediate (mk_channel_op 2 no_error 7) true].
Proof.
  intros w. split; [reflexivity|].
  destruct (async_get_on_channel 0 Nat.even w 2) as [_ [_ H]].
  cbn [w impl buffer_ putters_ getters_ io_service_ value_ app Nat.even] in H.
  destruct H as [Hb [Hp [_ Hio]]].
  split; [exact Hb|]. split; [exact Hp|]. exact Hio.
Defined.

(** C3 at an open channel of capacity 1 that buffers 1 while the put of 2
    waits: [close] fails the put and keeps the buffer. *)
Lemma close_fails_the_waiters_witness :
  let w := @mk_world nat nat
             (mk_implementation_type true 1 [mk_channel_op 20 no_error 2] [] [1]) [] in
  exec (close Nat.even) w =
    {| impl := mk_implementation_type false 1 [] [] [1];
       io_service_ := [post_immediate (mk_channel_op 20 broken_pipe 2) true] |} /\
  open_ (impl (exec (close Nat.even) w)) = false /\
  buffer_ (impl (exec (close Nat.even) w)) = [1] /\
  io_service_ (exec (close Nat.even) w) =
    [post_immediate (mk_channel_op 20 broken_pipe 2) true].
Proof.
  intros w. split; [reflexivity|].
  destruct (close_fails_the_waiters Nat.even w) as [Ho [_ [_ [Hb [_ [Hio _]]]]]].
  split; [exact Ho|]. split; [exact Hb|]. exact Hio.
Defined.

(** C4 (as first stated) fails: a channel with a queued getter and the same
    channel after [cancel] are two open channels of the same capacity with
    the same (empty) buffer, yet a put is handed to the getter on the first
    and buffered on the second. *)
Lemma cancel_reuse_counterexample :
  ~ (forall (w : @world nat nat) (other : implementation_type)
            (log : io_service_impl) (value handler : nat),
       open_ (impl w) = true ->
       open_ other = true ->
       max_buffer_size_ other = max_buffer_size_ (impl w) ->
       buffer_ other = buffer_ (impl w) ->
       impl (exec (async_put 0 Nat.even value handler) (exec (cancel Nat.even) w)) =
       impl (exec (async_put 0 Nat.even value handler)
               {| impl := other; io_service_ := log |})).
Proof.
  intros H.
  specialize (H (@mk_world nat nat
                   (mk_implementation_type true 1 [] [mk_channel_op 7 no_error 0] []) [])
                (mk_implementation_type true 1 [] [mk_channel_op 7 no_error 0] [])
                [] 9 3 eq_refl eq_refl eq_refl eq_refl).
  discriminate H.
Qed.

(** C4 (amended) at a channel with two queued getters: both are cancelled,
    and a put of 9 is then buffered as on a channel that never had a
    waiter. *)
Lemma cancel_aborts_the_waiters_witness :
  let w := @mk_world nat nat
             (mk_implementation_type true 1 []
                [mk_channel_op 10 no_error 0; mk_channel_op 21 no_error 0] []) [] in
  let other := @mk_implementation_type nat nat true 1 [] [] [] in
  exec (cancel Nat.even) w =
    {| impl := other;
       io_service_ :=
         [post_immediate (mk_channel_op 10 operation_cancelled 0) true;
          post_immediate (mk_channel_op 21 operation_cancelled 0) false] |} /\
  open_ (impl w) = true /\
  io_service_ (exec (cancel Nat.even) w) =
    [post_immediate (mk_channel_op 10 operation_cancelled 0) true;
     post_immediate (mk_channel_op 21 operation_cancelled 0) false] /\
  buffer_ (impl (exec (async_put 0 Nat.even 9 3) (exec (cancel Nat.even) w))) = [9] /\
  impl (exec (serve_all 0 Nat.even [req_async_put 9 3]) (exec (cancel Nat.even) w)) =
    impl (exec (serve_all 0 Nat.even [req_async_put 9 3])
            {| impl := other; io_service_ := [] |}).
Proof.
  intros w other. split; [reflexivity|].
  assert (Ho : open_ (impl w) = true) by reflexivity.
  split; [exact Ho|].
  destruct (cancel_aborts_the_waiters 0 Nat.even w)
    as [_ [_ [_ [_ [_ [Hio [_ [_ [_ [Hnext Hsame]]]]]]]]]].
  split; [exact Hio|]. split.
  - exact (proj1 (proj1 (Hnext Ho 9 3))).
  - exact (proj1 (Hsame other [] [req_async_put 9 3]
                    Ho eq_refl eq_refl eq_refl eq_refl eq_refl)).
Defined.

(** C5 at a full channel of capacity 1 with a queued putter: the put parks,
    the get pops and refills; the buffer stays within the capacity. *)
Lemma buffer_within_capacity_witness :
  let w := history 0 Nat.even 1 [req_async_put 1 10; req_async_put 2 20] in
  let op := mk_channel_op 4 no_error 9 in
  size (buffer_ (impl w)) <= max_buffer_size_ (impl w) /\
  size (buffer_ (impl (exec (do_put 0 op true) w))) <= 1 /\
  size (buffer_ (impl (exec (do_get 0 op true) w))) <= 1.
Proof.
  intros w op.
  assert (H : size (buffer_ (impl w)) <= max_buffer_size_ (impl w)).
  { cbn. lia. }
  split; [exact H|].
  exact (proj2 (buffer_within_capacity 0 Nat.even 1 [] w op true) H).
Defined.

(** C7 at a closed channel holding 7 and 8: three gets receive 7, 8 and
    [broken_pipe]; and at an open channel with a queued getter: a put adds
    no completion carrying [broken_pipe]. *)
Lemma broken_pipe_exactly_when_closed_witness :
  let w := history 0 Nat.even 2 [req_async_put 7 1; req_async_put 8 3; req_close] in
  let o := @mk_world nat nat
             (mk_implementation_type true 1 [] [mk_channel_op 7 no_error 0] []) [] in
  open_ (impl w) = false /\
  putters_ (impl w) = [] /\
  io_service_ (exec (serve_all 0 Nat.even (map req_async_get [2; 4; 6])) w) =
    io_service_ w ++
      [post_immediate (mk_channel_op 2 no_error 7) true;
       post_immediate (mk_channel_op 4 no_error 8) true;
       post_immediate (mk_channel_op 6 broken_pipe 0) true] /\
  waiters_unresolved (impl o) /\
  ~ Exists (completes_with broken_pipe) (calls_added (async_put 0 Nat.even 9 3) o) /\
  calls_added (async_put 0 Nat.even 9 3) o =
    [post_deferred (mk_channel_op 7 no_error 9);
     post_immediate (mk_channel_op 3 no_error 9) false] /\
  calls_added (serve_all 0 Nat.even (map req_async_get [2; 4; 6])) w =
    [post_immediate (mk_channel_op 2 no_error 7) true;
     post_immediate (mk_channel_op 4 no_error 8) true;
     post_immediate (mk_channel_op 6 broken_pipe 0) true].
Proof.
  intros w o.
  assert (Ho : open_ (impl w) = false) by reflexivity.
  assert (Hp : putters_ (impl w) = []) by reflexivity.
  assert (Hu : waiters_unresolved (impl o)).
  { split; repeat constructor. }
  split; [exact Ho|]. split; [exact Hp|].
  split; [|split; [exact Hu|split; [|split; reflexivity]]].
  - destruct (broken_pipe_exactly_when_closed 0 Nat.even w 0 0 [2; 4; 6])
      as [_ [_ [_ H]]].
    rewrite (H Ho Hp). reflexivity.
  - destruct (broken_pipe_exactly_when_closed 0 Nat.even o 9 3 [])
      as [_ [_ [H _]]].
    intros Hex. apply (proj1 (H Hu)) in Hex. discriminate Hex.
Defined.

(** C8 on a rendezvous channel: the put with handler 1 is parked, matched by
    the get, and completed once. *)
Lemma every_operation_completes_once_witness :
  let sel := Nat.eqb 1 in
  submitted sel (@nil (@request nat nat)) = 0 /\
  submitted sel [@req_async_put nat nat 5 1] = 1 /\
  submitted sel [@req_async_get nat nat 2] = 0 /\
  dispatched sel
    (io_service_ (history 0 Nat.even 0 ([] ++ [req_async_put 5 1; req_async_get 2]))) +
  queued sel (impl (history 0 Nat.even 0 ([] ++ [req_async_put 5 1; req_async_get 2]))) = 1.
Proof.
  intros sel.
  assert (H1 : submitted sel (@nil (@request nat nat)) = 0) by reflexivity.
  assert (Hr : submitted sel [@req_async_put nat nat 5 1] = 1) by reflexivity.
  assert (H2 : submitted sel [@req_async_get nat nat 2] = 0) by reflexivity.
  split; [exact H1|]. split; [exact Hr|]. split; [exact H2|].
  destruct (every_operation_completes_once 0 Nat.even 0 [] (req_async_put 5 1)
              [req_async_get 2] sel H1 Hr H2) as [H _].
  exact H.
Defined.

(** C10 at a closed, empty channel: a failing put and a failing get leave the
    state alone. *)
Lemma failing_submission_keeps_state_witness :
  let w := history 0 Nat.even 1 [req_close] in
  let op := mk_channel_op 4 no_error 9 in
  open_ (impl w) = false /\
  buffer_ (impl w) = [] /\
  putters_ (impl w) = [] /\
  impl (exec (do_put 0 op true) w) = impl w /\
  impl (exec (do_get 0 op true) w) = impl w.
Proof.
  intros w op.
  assert (Ho : open_ (impl w) = false) by reflexivity.
  assert (Hb : buffer_ (impl w) = []) by reflexivity.
  assert (Hp : putters_ (impl w) = []) by reflexivity.
  split; [exact Ho|]. split; [exact Hb|]. split; [exact Hp|].
  destruct (failing_submission_keeps_state 0 w op true) as [Hput Hget].
  split; [exact (proj1 (Hput Ho)) | exact (proj1 (Hget Ho Hb Hp))].
Defined.

(** * Concrete channels for the further properties

    The channels below are written out field by field. *)

(** X1 at a channel that buffers 7. *)
Lemma ready_iff_get_completes_witness :
  let w := @mk_world nat nat (mk_implementation_type true 1 [] [] [7]) [] in
  ready (impl w) = true /\
  exists v log,
    io_service_ (exec (async_get 0 Nat.even 2) w) =
      log ++ [post_immediate (set_value (channel_get_op 0 2) v) (Nat.even 2)].
Proof.
  intros w.
  assert (Hr : ready (impl w) = true) by reflexivity.
  split; [exact Hr|].
  exact (proj1 (ready_iff_get_completes 0 Nat.even w 2) Hr).
Defined.

(** X2 at an open channel of capacity 1 that buffers 7 while the put of 8
    waits: after a get the put of 8 has moved into the buffer and
    nobody waits. *)
Lemma no_waiter_waits_needlessly_witness :
  let w := @mk_world nat nat
             (mk_implementation_type true 1 [mk_channel_op 3 no_error 8] [] [7]) [] in
  waits_only_when_needed (impl w) /\
  waits_only_when_needed (impl (exec (do_get 0 (channel_get_op 0 2) true) w)).
Proof.
  intros w.
  assert (H : waits_only_when_needed (impl w)).
  { split; intros Hq; [cbn; lia | now contradiction Hq]. }
  split; [exact H|].
  destruct (no_waiter_waits_needlessly 0 w (channel_get_op 0 2) true) as [_ Hstep].
  exact (proj1 (proj2 (Hstep H))).
Defined.

(** X3 at an open channel of capacity 1 that buffers 7 while the put of 8
    waits: two gets receive 7 then 8. *)
Lemma gets_receive_oldest_first_witness :
  let w := @mk_world nat nat
             (mk_implementation_type true 1 [mk_channel_op 3 no_error 8] [] [7]) [] in
  exec (serve_all 0 Nat.even (map req_async_get [2; 4])) w =
    {| impl := mk_implementation_type true 1 [] [] [];
       io_service_ :=
         [post_deferred (mk_channel_op 3 no_error 8);
          post_immediate (mk_channel_op 2 no_error 7) true;
          post_immediate (mk_channel_op 4 no_error 8) true] |} /\
  length [2; 4] <= length (in_flight (impl w)) /\
  in_flight (impl (exec (serve_all 0 Nat.even (map req_async_get [2; 4])) w)) = [] /\
  immediate_calls (calls_added (serve_all 0 Nat.even (map req_async_get [2; 4])) w) =
    [post_immediate (mk_channel_op 2 no_error 7) true;
     post_immediate (mk_channel_op 4 no_error 8) true].
Proof.
  intros w. split; [reflexivity|].
  assert (H : length [2; 4] <= length (in_flight (impl w))) by (cbn; lia).
  split; [exact H|].
  destruct (gets_receive_oldest_first 0 Nat.even [2; 4] w H)
    as [E [_ [_ [_ [_ [Him _]]]]]].
  split; [exact E | exact Him].
Defined.

(** X4 at an empty channel of capacity 1: 7 is buffered, 8 waits behind. *)
Lemma puts_queue_behind_witness :
  let w := @mk_world nat nat (mk_implementation_type true 1 [] [] []) [] in
  open_ (impl w) = true /\
  getters_ (impl w) = [] /\
  in_flight (impl (exec (serve_all 0 Nat.even (req_puts [(7, 1); (8, 3)])) w)) =
    [7; 8].
Proof.
  intros w.
  assert (Ho : open_ (impl w) = true) by reflexivity.
  assert (Hg : getters_ (impl w) = []) by reflexivity.
  assert (Hp : putters_ (impl w) <> [] ->
               max_buffer_size_ (impl w) <= size (buffer_ (impl w))).
  { intros Hq. now contradiction Hq. }
  split; [exact Ho|]. split; [exact Hg|].
  exact (proj1 (puts_queue_behind 0 Nat.even [(7, 1); (8, 3)] w Ho Hg Hp)).
Defined.

(** X5 at an empty channel of capacity 1: two puts, two gets that receive 7
    then 8, and the channel is as before. *)
Lemma channel_is_fifo_witness :
  let w := @mk_world nat nat (mk_implementation_type true 1 [] [] []) [] in
  let filled := exec (serve_all 0 Nat.even (req_puts [(7, 1); (8, 3)])) w in
  exec (serve_all 0 Nat.even (map req_async_get [2; 4])) filled =
    {| impl := impl w;
       io_service_ :=
         [post_immediate (mk_channel_op 1 no_error 7) false;
          work;
          post_deferred (mk_channel_op 3 no_error 8);
          post_immediate (mk_channel_op 2 no_error 7) true;
          post_immediate (mk_channel_op 4 no_error 8) true] |} /\
  open_ (impl w) = true /\
  length [2; 4] = length [(7, 1); (8, 3)] /\
  impl (exec (serve_all 0 Nat.even (map req_async_get [2; 4])) filled) = impl w /\
  immediate_calls
    (calls_added (serve_all 0 Nat.even (map req_async_get [2; 4])) filled) =
    [post_immediate (mk_channel_op 2 no_error 7) true;
     post_immediate (mk_channel_op 4 no_error 8) true].
Proof.
  intros w filled. split; [reflexivity|].
  assert (Ho : open_ (impl w) = true) by reflexivity.
  assert (Hl : length [2; 4] = length [(7, 1); (8, 3)]) by reflexivity.
  split; [exact Ho|]. split; [exact Hl|].
  destruct (channel_is_fifo 0 Nat.even w [(7, 1); (8, 3)] [2; 4]
              Ho eq_refl eq_refl eq_refl Hl) as [E [Him _]].
  split; [exact E | exact Him].
Defined.

(** X6 at a channel with two queued getters: the put of 7 goes to the
    older one. *)
Lemma puts_feed_waiting_getters_witness :
  let w := @mk_world nat nat
             (mk_implementation_type true 1 []
                [channel_get_op 0 2; channel_get_op 0 4] []) [] in
  open_ (impl w) = true /\
  length [(7, 1)] <= length (getters_ (impl w)) /\
  exec (serve_all 0 Nat.even (req_puts [(7, 1)])) w =
    {| impl := mk_implementation_type true 1 [] [channel_get_op 0 4] [];
       io_service_ :=
         [post_deferred (mk_channel_op 2 no_error 7);
          post_immediate (mk_channel_op 1 no_error 7) false] |}.
Proof.
  intros w.
  assert (Ho : open_ (impl w) = true) by reflexivity.
  assert (Hl : length [(7, 1)] <= length (getters_ (impl w))) by (cbn; lia).
  split; [exact Ho|]. split; [exact Hl|].
  rewrite (puts_feed_waiting_getters 0 Nat.even [(7, 1)] w Ho Hl). reflexivity.
Defined.

(** X7 at an empty channel of capacity 1: two gets wait, two puts serve
    them. *)
Lemma gets_then_puts_round_trip_witness :
  let w := @mk_world nat nat (mk_implementation_type true 1 [] [] []) [] in
  open_ (impl w) = true /\
  length [(7, 1); (8, 3)] = length [2; 4] /\
  exec (serve_all 0 Nat.even (map req_async_get [2; 4] ++ req_puts [(7, 1); (8, 3)])) w =
    {| impl := impl w;
       io_service_ :=
         [work; work;
          post_deferred (mk_channel_op 2 no_error 7);
          post_immediate (mk_channel_op 1 no_error 7) false;
          post_deferred (mk_channel_op 4 no_error 8);
          post_immediate (mk_channel_op 3 no_error 8) false] |}.
Proof.
  intros w.
  assert (Ho : open_ (impl w) = true) by reflexivity.
  assert (Hl : length [(7, 1); (8, 3)] = length [2; 4]) by reflexivity.
  split; [exact Ho|]. split; [exact Hl|].
  rewrite (gets_then_puts_round_trip 0 Nat.even w [2; 4] [(7, 1); (8, 3)]
             Ho eq_refl eq_refl eq_refl Hl).
  reflexivity.
Defined.

(** X8 at a default-constructed channel. *)
Lemma rendezvous_never_buffers_witness :
  let w := @mk_world nat nat new_implementation [] in
  max_buffer_size_ (impl w) = 0 /\
  buffer_ (impl w) = [] /\
  buffer_ (impl (exec (do_put 0 (channel_put_op 7 1) false) w)) = [].
Proof.
  intros w.
  assert (Hm : max_buffer_size_ (impl w) = 0) by reflexivity.
  assert (Hb : buffer_ (impl w) = []) by reflexivity.
  split; [exact Hm|]. split; [exact Hb|].
  destruct (rendezvous_never_buffers 0 w (channel_put_op 7 1) false) as [_ [_ H]].
  exact (proj1 (H Hm Hb)).
Defined.

(** X9 at a default-constructed channel: a put is parked, and counted. *)
Lemma work_started_is_balanced_witness :
  work_balanced (@boot nat nat) /\
  work_balanced (exec (do_put 0 (channel_put_op 7 1) false) (@boot nat nat)).
Proof.
  assert (H : work_balanced (@boot nat nat)) by reflexivity.
  split; [exact H|].
  destruct (work_started_is_balanced 0 (@boot nat nat) (channel_put_op 7 1) false)
    as [_ Hstep].
  exact (proj1 (Hstep H)).
Defined.

(** X10 at a closed channel that is reopened: the put is accepted. *)
Lemma reopened_channel_accepts_witness :
  let w := @mk_world nat nat (mk_implementation_type false 1 [] [] []) [] in
  In (post_immediate (channel_put_op 7 1) false)
     (io_service_ (exec (async_put 0 Nat.even 7 1) (exec open w))) /\
  (In (post_immediate (channel_put_op 7 1) false) (io_service_ w) \/
   (handler_ (channel_put_op 7 1) = 1 /\ ec_ (@channel_put_op nat nat 7 1) = no_error)).
Proof.
  intros w.
  assert (Hin : In (post_immediate (channel_put_op 7 1) false)
                   (io_service_ (exec (async_put 0 Nat.even 7 1) (exec open w)))).
  { left. reflexivity. }
  split; [exact Hin|].
  exact (proj1 (reopened_channel_accepts 0 Nat.even w 7 1 (channel_put_op 7 1) false) Hin).
Defined.

(** X12 at an empty channel of capacity 1: 7 is buffered, 8 and 9 wait. *)
Lemma puts_fill_then_park_witness :
  let w := @mk_world nat nat (mk_implementation_type true 1 [] [] []) [] in
  open_ (impl w) = true /\
  getters_ (impl w) = [] /\
  exec (serve_all 0 Nat.even (req_puts [(7, 1); (8, 3); (9, 5)])) w =
    {| impl := mk_implementation_type true 1
                 [channel_put_op 8 3; channel_put_op 9 5] [] [7];
       io_service_ := [post_immediate (channel_put_op 7 1) false; work; work] |}.
Proof.
  intros w.
  assert (Ho : open_ (impl w) = true) by reflexivity.
  assert (Hg : getters_ (impl w) = []) by reflexivity.
  split; [exact Ho|]. split; [exact Hg|].
  rewrite (puts_fill_then_park 0 Nat.even [(7, 1); (8, 3); (9, 5)] w Ho Hg).
  reflexivity.
Defined.
